(** * The mesh layout algebra of torch/distributed/_mesh_layout.py

    A shallow embedding of [_MeshLayout]: nested integer tuples, the
    construction check, rank enumeration ([member_ranks], [global_ranks]),
    the overlap diagnostic ([check_non_overlap]) and the mesh bridge
    ([to_remapping_tensor]), followed by the properties stated about them.

    Python integers are unbounded, so they are [Z]; [//] and [%] are
    [Z.div] and [Z.modulo] (both round towards minus infinity, as Python
    does).  Code that can raise returns a [result]. *)

From Stdlib Require Import ZArith List Bool Lia Permutation Sorted.
Import ListNotations.
Local Open Scope Z_scope.

Set Warnings "-register-all".

(* ================================================================= *)
(** ** Errors *)

Inductive error : Type :=
| TypeError
| ValueError
| ZeroDivisionError
| IndexError
| RuntimeError
| InvalidWorldSize.

Definition result (A : Type) : Type := (error + A)%type.

Definition ok {A : Type} (a : A) : result A := inr a.

Definition raise {A : Type} (e : error) : result A := inl e.

Definition bind {A B : Type} (c : result A) (k : A -> result B) : result B :=
  match c with
  | inl e => inl e
  | inr a => k a
  end.

Notation "x <- c ;; k" := (bind c (fun x => k))
  (at level 61, c at next level, right associativity).

(** [a // b] of Python. *)
Definition floordiv (a b : Z) : result Z :=
  if b =? 0 then raise ZeroDivisionError else ok (a / b).

(* ================================================================= *)
(** ** Nested integer tuples *)

(** [IntTuple] of pycute: an int, or a tuple of [IntTuple]s. *)
Inductive IntTuple : Type :=
| Int (n : Z)
| Tuple (ts : list IntTuple).

Definition is_int (t : IntTuple) : bool :=
  match t with Int _ => true | Tuple _ => false end.

Definition is_tuple (t : IntTuple) : bool :=
  match t with Int _ => false | Tuple _ => true end.

(** Modelled from the spec: [flatten] of torch.distributed._pycute, which
    _mesh_layout.py only imports.  The spec's "flattened view" is the
    sequence of leaves met by an in-order traversal; a bare int is its own
    single leaf. *)
Fixpoint flatten (t : IntTuple) : list Z :=
  match t with
  | Int n => [n]
  | Tuple ts => flat_map flatten ts
  end.

(** Two trees have the same tree shape: leaf against leaf, node against
    node with as many children, recursively (the spec's section 3). *)
Fixpoint same_tree (a b : IntTuple) {struct a} : bool :=
  match a, b with
  | Int _, Int _ => true
  | Tuple ts, Tuple us =>
      (fix same_list (l : list IntTuple) (m : list IntTuple) {struct l} : bool :=
         match l, m with
         | [], [] => true
         | x :: l', y :: m' => same_tree x y && same_list l' m'
         | _, _ => false
         end) ts us
  | _, _ => false
  end.

(* ================================================================= *)
(** ** Python built-ins used by the methods *)

Definition len {A : Type} (l : list A) : Z := Z.of_nat (length l).

(** [range(n)]: empty when [n <= 0]. *)
Definition range (n : Z) : list Z := map Z.of_nat (seq 0 (Z.to_nat n)).

Definition zip {A B : Type} (l : list A) (m : list B) : list (A * B) :=
  combine l m.

(** [sum(xs)]: a left fold from 0. *)
Definition sum (xs : list Z) : Z := fold_left Z.add xs 0.

(** [math.prod(xs)]: a left fold from 1. *)
Definition prod (xs : list Z) : Z := fold_left Z.mul xs 1.

(** [itertools.product] over the pools: the first pool varies slowest. *)
Fixpoint product (pools : list (list Z)) : list (list Z) :=
  match pools with
  | [] => [[]]
  | pool :: rest => flat_map (fun x => map (cons x) (product rest)) pool
  end.

(** [sorted(xs, key=key)] is a stable sort; any stable sort returns the
    same list, here by insertion: an element goes in front of the
    elements that follow it in the input and have an equal key. *)
Fixpoint insert_by {A : Type} (key : A -> Z) (x : A) (l : list A) : list A :=
  match l with
  | [] => [x]
  | y :: l' => if key x <=? key y then x :: y :: l' else y :: insert_by key x l'
  end.

Definition sorted {A : Type} (key : A -> Z) (l : list A) : list A :=
  fold_right (insert_by key) [] l.

(** [xs == ys] on lists of ints. *)
Fixpoint list_eqb (xs ys : list Z) : bool :=
  match xs, ys with
  | [], [] => true
  | x :: xs', y :: ys' => (x =? y) && list_eqb xs' ys'
  | _, _ => false
  end.

(* ================================================================= *)
(** ** [_MeshLayout] *)

(** The dataclass: two fields, frozen. *)
Record _MeshLayout : Type := Layout { shape : IntTuple; stride : IntTuple }.

(** [__post_init__].  The two [TypeError] tests are kept as written; on
    an [IntTuple] one of [is_tuple], [is_int] always holds. *)
Definition __post_init__ (self : _MeshLayout) : result unit :=
  if negb (is_tuple (shape self)) && negb (is_int (shape self)) then
    raise TypeError
  else if negb (is_tuple (stride self)) && negb (is_int (stride self)) then
    raise TypeError
  else if is_tuple (shape self) && is_tuple (stride self)
          && negb (len (flatten (shape self)) =? len (flatten (stride self)))
  then raise ValueError
  else ok tt.

(** The call [_MeshLayout(shape, stride)]: build, then [__post_init__]. *)
Definition new (shape0 stride0 : IntTuple) : result _MeshLayout :=
  let self := Layout shape0 stride0 in
  _ <- __post_init__ self ;; ok self.

Definition sizes (self : _MeshLayout) : IntTuple := shape self.

Definition strides (self : _MeshLayout) : IntTuple := stride self.

Definition sizes_and_strides (self : _MeshLayout) : list (Z * Z) :=
  zip (flatten (shape self)) (flatten (stride self)).

Definition numel (self : _MeshLayout) : Z := prod (flatten (shape self)).

Definition member_ranks (self : _MeshLayout) : list Z :=
  map (fun coord =>
         sum (map (fun cs => fst cs * snd cs)
                  (zip coord (flatten (strides self)))))
      (product (map range (flatten (sizes self)))).

(** The loop of [check_non_overlap] over the sorted pairs. *)
Fixpoint check_walk (previous_span previous_stride : Z) (l : list (Z * Z))
  : bool :=
  match l with
  | [] => true
  | (size, stride0) :: rest =>
      if size =? 1 then check_walk previous_span previous_stride rest
      else if (previous_stride =? stride0) || (stride0 <? previous_span)
      then false
      else check_walk (size * stride0) stride0 rest
  end.

Definition check_non_overlap (self : _MeshLayout) : bool :=
  check_walk (-1) (-1) (sorted snd (sizes_and_strides self)).

(** The test [size == 1] of that loop, negated: a pair the loop does not
    skip. *)
Definition nontrivial (d : Z * Z) : bool := negb (fst d =? 1).

(* ================================================================= *)
(** ** Tensors *)

(** Modelled from the spec: the torch tensor primitives that
    [to_remapping_tensor] calls (native code).  A tensor is its
    dimensions and its values in row-major order. *)
Record Tensor : Type := mkTensor { dims : list Z; values : list Z }.

Definition tensor_numel (t : Tensor) : Z := len (values t).

Definition in_int32 (v : Z) : bool := (- 2 ^ 31 <=? v) && (v <? 2 ^ 31).

(** [torch.tensor(groups, device="cpu", dtype=torch.int)] for a list of
    equally long lists. *)
Definition torch_tensor (groups : list (list Z)) : result Tensor :=
  if forallb in_int32 (concat groups) then
    ok (mkTensor (match groups with
                  | [] => [0]
                  | g :: _ => [len groups; len g]
                  end)
                 (concat groups))
  else raise RuntimeError.

(** [t.view] with a leading -1 and then the sizes: the leading dimension
    is inferred. *)
Definition view_groups (t : Tensor) (sizes0 : list Z) : result Tensor :=
  if existsb (fun s => s <? 0) sizes0 then raise RuntimeError
  else if prod sizes0 =? 0 then raise RuntimeError
  else if tensor_numel t mod prod sizes0 =? 0 then
    ok (mkTensor (tensor_numel t / prod sizes0 :: sizes0) (values t))
  else raise RuntimeError.

(** [torch.equal(t.flatten().sort().values, torch.arange(t.numel()))]. *)
Definition is_arange (t : Tensor) : bool :=
  list_eqb (sorted (fun v => v) (values t)) (range (tensor_numel t)).

(** [flat[i]] for one index: negative indices count from the end. *)
Definition gather_one (flat : list Z) (i : Z) : result Z :=
  if (- len flat <=? i) && (i <? len flat) then
    ok (nth (Z.to_nat (if i <? 0 then i + len flat else i)) flat 0)
  else raise IndexError.

Fixpoint gather_all (flat : list Z) (idx : list Z) : result (list Z) :=
  match idx with
  | [] => ok []
  | i :: rest =>
      v <- gather_one flat i ;;
      vs <- gather_all flat rest ;;
      ok (v :: vs)
  end.

(** [t.flatten()[index]]. *)
Definition gather (t index : Tensor) : result Tensor :=
  vs <- gather_all (values t) (values index) ;;
  ok (mkTensor (dims index) vs).

(** The local function [scale_stride] of [to_remapping_tensor]. *)
Fixpoint scale_stride (scale : Z) (strides0 : IntTuple) : result IntTuple :=
  match strides0 with
  | Int s => if s <? scale then ok (Int s)
             else q <- floordiv s scale ;; ok (Int q)
  | Tuple ts =>
      ts' <- (fix each (l : list IntTuple) : result (list IntTuple) :=
                match l with
                | [] => ok []
                | t :: l' =>
                    t' <- scale_stride scale t ;;
                    l'' <- each l' ;;
                    ok (t' :: l'')
                end) ts ;;
      ok (Tuple ts')
  end.

(* ================================================================= *)
(** ** The methods that go through pycute *)

(** [coalesce], [composition] and [complement] of
    torch.distributed._pycute are only imported by _mesh_layout.py: the
    methods are written over whatever these three functions are. *)
Section Methods.

Variable pycute_coalesce : _MeshLayout -> result _MeshLayout.
Variable pycute_composition : _MeshLayout -> _MeshLayout -> result _MeshLayout.
Variable pycute_complement : _MeshLayout -> Z -> result _MeshLayout.

Definition coalesce (self : _MeshLayout) : result _MeshLayout :=
  layout <- pycute_coalesce self ;;
  new (shape layout) (stride layout).

Definition composition (self layout : _MeshLayout) : result _MeshLayout :=
  res <- pycute_composition self layout ;;
  new (shape res) (stride res).

Definition complement (self : _MeshLayout) (world_size : Z)
  : result _MeshLayout :=
  layout <- pycute_complement self world_size ;;
  new (shape layout) (stride layout).

Definition global_ranks (self : _MeshLayout) (world_size : Z)
  : result (list (list Z)) :=
  c <- complement self world_size ;;
  ok (map (fun group_offset =>
             map (fun group_rank => group_offset + group_rank)
                 (member_ranks self))
          (member_ranks c)).

Definition to_remapping_tensor (self : _MeshLayout)
           (original_mesh_tensor : Tensor) (world_size : Z)
  : result Tensor :=
  pg_ranks_by_dim <- global_ranks self (tensor_numel original_mesh_tensor) ;;
  let sizes0 := flatten (sizes self) in
  t0 <- torch_tensor pg_ranks_by_dim ;;
  tensor <- view_groups t0 sizes0 ;;
  if is_arange original_mesh_tensor then ok tensor
  else
    tensor' <-
      (if negb (tensor_numel original_mesh_tensor =? world_size) then
         scale_factor <- floordiv world_size
                                  (tensor_numel original_mesh_tensor) ;;
         scaled_strides <- scale_stride scale_factor (strides self) ;;
         scaled_layout <- new (sizes self) scaled_strides ;;
         pg_ranks_by_dim' <- global_ranks scaled_layout
                               (tensor_numel original_mesh_tensor) ;;
         t1 <- torch_tensor pg_ranks_by_dim' ;;
         view_groups t1 sizes0
       else ok tensor) ;;
    gather original_mesh_tensor tensor'.

End Methods.

(* ================================================================= *)
(** ** pycute, as the spec describes it *)

Module Pycute.

(** The layout whose flattened view is [ds]. *)
Definition of_dims (ds : list (Z * Z)) : _MeshLayout :=
  Layout (Tuple (map (fun d => Int (fst d)) ds))
         (Tuple (map (fun d => Int (snd d)) ds)).

(** Modelled from the spec: the merging pass of pycute's [coalesce]
    (section 4.2).  Of two neighbours the inner one is the right one (the
    fastest-varying, as the spec's example (3,2):(2,1) -> (6):(1) needs);
    it merges with its outer neighbour when inner stride times inner size
    is the outer stride, giving the product of the sizes and the inner
    stride.  Whether a pair merges does not depend on the merges made
    before, so one pass starting at the innermost dimension reaches the
    layout in which no merge applies. *)
Fixpoint merge_dims (ds : list (Z * Z)) : list (Z * Z) :=
  match ds with
  | [] => []
  | (size, stride0) :: inner =>
      match merge_dims inner with
      | [] => [(size, stride0)]
      | (isize, istride) :: more =>
          if istride * isize =? stride0
          then (size * isize, istride) :: more
          else (size, stride0) :: (isize, istride) :: more
      end
  end.

(** Modelled from the spec: [coalesce] of torch.distributed._pycute, of
    which only the import is at hand (section 4.2).  Dimensions of size 1
    are dropped, the rest merged; when none is left the result is the
    single-leaf layout (numel : 1). *)
Definition coalesce (layout : _MeshLayout) : result _MeshLayout :=
  match merge_dims (filter nontrivial (sizes_and_strides layout)) with
  | [] => ok (Layout (Int (numel layout)) (Int 1))
  | ds => ok (of_dims ds)
  end.

(** Modelled from the spec: the walk of pycute's [complement] (section
    4.4) over the dimensions in ascending stride order, from the boundary
    it is given.  Before each dimension it leaves the gap dimension
    (stride / boundary : boundary) and moves the boundary to
    size * stride. *)
Fixpoint gaps (boundary : Z) (ds : list (Z * Z)) : list (Z * Z) :=
  match ds with
  | [] => []
  | (size, stride0) :: rest =>
      (stride0 / boundary, boundary) :: gaps (size * stride0) rest
  end.

(** Modelled from the spec: the boundary after the last dimension of that
    walk, the total span. *)
Fixpoint total_span (boundary : Z) (ds : list (Z * Z)) : Z :=
  match ds with
  | [] => boundary
  | (size, stride0) :: rest => total_span (size * stride0) rest
  end.

(** Modelled from the spec: [complement] of torch.distributed._pycute, of
    which only the import is at hand (section 4.4).  The dimensions are
    sorted by stride, size-1 dimensions skipped, and walked from the
    boundary 1.  A gap of width one boundary is no gap and gives no
    dimension; the final dimension (world_size / total span : total span)
    is always there.  The spec leaves the order of the result's
    dimensions open: they are listed largest stride first, the order in
    which [member_ranks] makes the leftmost dimension the slowest.  It
    fails when the layout overlaps, which is what [check_non_overlap]
    detects, and when the total span does not divide the world size. *)
Definition complement (layout : _MeshLayout) (world_size : Z)
  : result _MeshLayout :=
  let ds := filter nontrivial (sorted snd (sizes_and_strides layout)) in
  let total := total_span 1 ds in
  if negb (check_non_overlap layout) then raise InvalidWorldSize
  else if (total =? 0) || negb (world_size mod total =? 0)
  then raise InvalidWorldSize
  else ok (of_dims ((world_size / total, total)
                      :: rev (filter nontrivial (gaps 1 ds)))).

(** Modelled from the spec: the value of a layout at a linear index, the
    index-th rank in row-major order. *)
Definition at_index (layout : _MeshLayout) (i : Z) : Z :=
  nth (Z.to_nat i) (member_ranks layout) 0.

Definition valid_index (layout : _MeshLayout) (i : Z) : bool :=
  (0 <=? i) && (i <? len (member_ranks layout)).

(** Modelled from the spec: [composition] of torch.distributed._pycute, of
    which only the import is at hand (section 4.3).  The spec gives no
    algorithm, only what the result is: a layout over the coordinates of
    [other] whose value at each of them is the value of [self] at the
    index that [other] gives there.  [is_composition self other res]
    checks that of a candidate [res]. *)
Definition is_composition (self other res : _MeshLayout) : bool :=
  list_eqb (flatten (shape res)) (flatten (shape other))
  && forallb (valid_index self) (member_ranks other)
  && list_eqb (member_ranks res)
              (map (at_index self) (member_ranks other)).

End Pycute.

(* ================================================================= *)
(** ** Vocabulary of the statements *)

(** The spec's invariant on leaves: none is negative. *)
Definition nonneg (t : IntTuple) : bool :=
  forallb (fun v => 0 <=? v) (flatten t).

(** Every leaf is at least 1. *)
Definition positive (t : IntTuple) : bool :=
  forallb (fun v => 1 <=? v) (flatten t).

(** As many size leaves as stride leaves. *)
Definition same_length (self : _MeshLayout) : bool :=
  len (flatten (shape self)) =? len (flatten (stride self)).

(** The coordinate of position [k] in row-major order over [ns]: the
    leftmost coordinate is the slowest. *)
Fixpoint unravel (ns : list Z) (k : Z) : list Z :=
  match ns with
  | [] => []
  | n :: rest => (k / prod rest) mod n :: unravel rest k
  end.

(** The sum of coordinate times stride, over the pairs there are. *)
Definition dot (coord ss : list Z) : Z :=
  sum (map (fun cs => fst cs * snd cs) (zip coord ss)).

(** The rank of position [k]. *)
Definition rank_at (self : _MeshLayout) (k : Z) : Z :=
  dot (unravel (flatten (sizes self)) k) (flatten (strides self)).

(** One group per offset of [c]: the ranks of [self] moved by it. *)
Definition shifted_groups (self c : _MeshLayout) : list (list Z) :=
  map (fun offset => map (Z.add offset) (member_ranks self)) (member_ranks c).

(** Keys never decrease along the list. *)
Definition ascending {A : Type} (key : A -> Z) : list A -> Prop :=
  StronglySorted (fun a b => key a <= key b).

(** The pairs that [check_non_overlap] looks at, in the order it does. *)
Definition kept_pairs (self : _MeshLayout) : list (Z * Z) :=
  filter nontrivial (sorted snd (sizes_and_strides self)).

(** [q] follows [p] and has the same stride, or starts inside [p]'s
    span. *)
Definition clash (p q : Z * Z) : Prop :=
  snd q = snd p \/ snd q < fst p * snd p.

Definition has_clash (l : list (Z * Z)) : Prop :=
  exists l1 p q l2, l = l1 ++ p :: q :: l2 /\ clash p q.

(** Every stride, in the order of the walk, is a multiple of the boundary
    reached before it. *)
Fixpoint strides_fit (boundary : Z) (ds : list (Z * Z)) : bool :=
  match ds with
  | [] => true
  | (size, stride0) :: rest =>
      (stride0 mod boundary =? 0) && strides_fit (size * stride0) rest
  end.

Definition gaps_fit (self : _MeshLayout) : bool :=
  strides_fit 1 (kept_pairs self).

(** The ranks of a flattened view, by recursion on it: the ranks of the
    rest, shifted by each multiple of the first stride in turn. *)
Fixpoint ranks_of (ds : list (Z * Z)) : list Z :=
  match ds with
  | [] => [0]
  | (size, stride0) :: rest =>
      flat_map (fun c => map (Z.add (c * stride0)) (ranks_of rest))
               (range size)
  end.

(** The walk of [Pycute.gaps] with the dimensions left in place: gap,
    dimension, gap, dimension, ..., final dimension. *)
Fixpoint interleave (boundary : Z) (ds : list (Z * Z)) (world_size : Z)
  : list (Z * Z) :=
  match ds with
  | [] => [(world_size / boundary, boundary)]
  | (size, stride0) :: rest =>
      (stride0 / boundary, boundary) :: (size, stride0)
        :: interleave (size * stride0) rest world_size
  end.

(** A mixed-radix system from weight [w] up: each stride is the product
    of [w] and the sizes before it. *)
Fixpoint radix_chain (w : Z) (ds : list (Z * Z)) : Prop :=
  match ds with
  | [] => True
  | (size, stride0) :: rest => stride0 = w /\ radix_chain (w * size) rest
  end.

(* ================================================================= *)
(** ** Vocabulary of the further properties *)

(** Every dimension has size 1 or a stride of at least 1. *)
Definition positive_strides (self : _MeshLayout) : bool :=
  forallb (fun d => (fst d =? 1) || (1 <=? snd d)) (sizes_and_strides self).

(** Two dimensions lie apart: one of them has the strictly larger stride,
    and that stride is at least the span of the other. *)
Definition apart (p q : Z * Z) : Prop :=
  (snd p < snd q /\ fst p * snd p <= snd q)
  \/ (snd q < snd p /\ fst q * snd q <= snd p).

(** The rank of the last coordinate: every coordinate at size - 1. *)
Fixpoint max_rank (ds : list (Z * Z)) : Z :=
  match ds with
  | [] => 0
  | (size, stride0) :: rest => (size - 1) * stride0 + max_rank rest
  end.

(** The layout with the dimensions of [c] in front of those of [self]. *)
Definition stacked (c self : _MeshLayout) : _MeshLayout :=
  Layout (Tuple [shape c; shape self]) (Tuple [stride c; stride self]).

(** The strides that [zip] pairs with the sizes [ns], and 0 for a size
    that [zip] leaves without a stride: a coordinate that is in no pair
    adds nothing to the sum. *)
Fixpoint pad_strides (ns ss : list Z) : list Z :=
  match ns with
  | [] => []
  | _ :: ns' =>
      match ss with
      | [] => 0 :: pad_strides ns' []
      | s :: ss' => s :: pad_strides ns' ss'
      end
  end.

(** What [scale_stride] does to a leaf when the division is defined. *)
Definition scale_leaf (scale s : Z) : Z :=
  if s <? scale then s else s / scale.

(** The span of the first dimension; 1, a single address, when there is
    none. *)
Definition inner_span (ds : list (Z * Z)) : Z :=
  match ds with
  | [] => 1
  | (size, stride0) :: _ => size * stride0
  end.

(** Largest stride first: every stride is at least 1 and at least the
    span of the dimension after it. *)
Fixpoint nested (ds : list (Z * Z)) : Prop :=
  match ds with
  | [] => True
  | (size, stride0) :: rest =>
      1 <= stride0 /\ inner_span rest <= stride0 /\ nested rest
  end.

(** Smallest stride first, from a bound: every stride is at least 1 and
    at least the span before it. *)
Fixpoint spaced (bound : Z) (ds : list (Z * Z)) : Prop :=
  match ds with
  | [] => True
  | (size, stride0) :: rest =>
      1 <= stride0 /\ bound <= stride0 /\ spaced (size * stride0) rest
  end.

(** The tree with [f] applied to every leaf. *)
Fixpoint map_leaves (f : Z -> Z) (t : IntTuple) : IntTuple :=
  match t with
  | Int n => Int (f n)
  | Tuple ts => Tuple (map (map_leaves f) ts)
  end.

(* ================================================================= *)
(** * Properties *)

(** ** Folds, ranges and products *)

Lemma fold_add_acc (xs : list Z) (a : Z) :
  fold_left Z.add xs a = a + fold_left Z.add xs 0.
Proof.
  revert a; induction xs as [|x xs IH]; intros a; simpl.
  - lia.
  - rewrite IH, (IH x). lia.
Qed.

Lemma sum_cons (x : Z) (xs : list Z) : sum (x :: xs) = x + sum xs.
Proof. unfold sum; simpl. apply fold_add_acc. Qed.

Lemma fold_mul_acc (xs : list Z) (a : Z) :
  fold_left Z.mul xs a = a * fold_left Z.mul xs 1.
Proof.
  revert a; induction xs as [|x xs IH]; intros a; cbn [fold_left].
  - lia.
  - rewrite IH, (IH (1 * x)). lia.
Qed.

Lemma prod_cons (x : Z) (xs : list Z) : prod (x :: xs) = x * prod xs.
Proof.
  unfold prod; cbn [fold_left]. rewrite fold_mul_acc. f_equal. lia.
Qed.

Lemma prod_nonneg (xs : list Z) :
  Forall (fun v => 0 <= v) xs -> 0 <= prod xs.
Proof.
  induction 1 as [|x xs Hx _ IH].
  - unfold prod; simpl; lia.
  - rewrite prod_cons. lia.
Qed.

Lemma range_nonpos (n : Z) : n <= 0 -> range n = [].
Proof.
  intros H. unfold range. replace (Z.to_nat n) with 0%nat by lia. reflexivity.
Qed.

Lemma range_succ (n : Z) : 0 <= n -> range (n + 1) = range n ++ [n].
Proof.
  intros H. unfold range.
  replace (Z.to_nat (n + 1)) with (S (Z.to_nat n)) by lia.
  rewrite seq_S, map_app. simpl. rewrite Z2Nat.id by lia. reflexivity.
Qed.

Lemma in_range (n x : Z) : In x (range n) <-> 0 <= x < n.
Proof.
  unfold range. rewrite in_map_iff. split.
  - intros [k [<- Hk]]. apply in_seq in Hk. lia.
  - intros H. exists (Z.to_nat x). split; [lia|]. apply in_seq. lia.
Qed.

Lemma length_range (n : Z) : length (range n) = Z.to_nat n.
Proof. unfold range. rewrite length_map, length_seq. reflexivity. Qed.

Lemma range_add (a b : Z) :
  0 <= a -> 0 <= b -> range (a + b) = range a ++ map (Z.add a) (range b).
Proof.
  intros Ha Hb. unfold range.
  replace (Z.to_nat (a + b)) with (Z.to_nat a + Z.to_nat b)%nat by lia.
  rewrite seq_app, map_app. f_equal. simpl.
  rewrite <- (Nat.add_0_r (Z.to_nat a)) at 1.
  generalize 0%nat. induction (Z.to_nat b) as [|k IH]; intros m; simpl.
  - reflexivity.
  - f_equal; [lia|]. rewrite <- IH. f_equal. f_equal. lia.
Qed.

Lemma map_flat_map {A B C : Type} (f : B -> C) (g : A -> list B) (l : list A) :
  map f (flat_map g l) = flat_map (fun x => map f (g x)) l.
Proof.
  induction l as [|x l IH]; simpl; [reflexivity|].
  rewrite map_app, IH. reflexivity.
Qed.

Lemma flat_map_ext_in {A B : Type} (f g : A -> list B) (l : list A) :
  (forall x, In x l -> f x = g x) -> flat_map f l = flat_map g l.
Proof.
  induction l as [|x l IH]; simpl; intros H; [reflexivity|].
  rewrite H by auto. rewrite IH by auto. reflexivity.
Qed.

(** Row-major order over a rectangle counts up: row [x] holds
    [x * p], ..., [x * p + p - 1]. *)
Lemma range_rows (n p : Z) :
  0 <= n -> 0 <= p ->
  flat_map (fun x => map (fun j => x * p + j) (range p)) (range n)
  = range (n * p).
Proof.
  intros Hn Hp. revert n Hn.
  apply natlike_ind.
  - reflexivity.
  - intros n Hn IH. unfold Z.succ.
    rewrite range_succ, flat_map_app, IH by lia. simpl.
    rewrite app_nil_r.
    replace ((n + 1) * p) with (n * p + p) by lia.
    rewrite range_add by nia. reflexivity.
Qed.

(** ** [member_ranks] in row-major order *)


Lemma unravel_shift (ns : list Z) (j m : Z) :
  unravel ns (m * prod ns + j) = unravel ns j.
Proof.
  revert m; induction ns as [|n ns IH]; intros m; simpl; [reflexivity|].
  rewrite prod_cons.
  replace (m * (n * prod ns) + j) with ((m * n) * prod ns + j) by lia.
  rewrite IH. apply (f_equal2 cons); [|reflexivity].
  destruct (Z.eq_dec (prod ns) 0) as [E|E].
  - rewrite E. rewrite !Z.div_0_r. reflexivity.
  - rewrite Z.div_add_l by assumption.
    destruct (Z.eq_dec n 0) as [->|En].
    + rewrite Z.mul_0_r. reflexivity.
    + rewrite Z.add_comm. apply Z.mod_add. assumption.
Qed.

Lemma ranks_row_major (ns ss : list Z) :
  Forall (fun v => 0 <= v) ns ->
  map (fun coord => dot coord ss) (product (map range ns))
  = map (fun k => dot (unravel ns k) ss) (range (prod ns)).
Proof.
  intros Hns. revert ss.
  induction Hns as [|n ns Hn Hns IH]; intros ss.
  - reflexivity.
  - cbn [map product]. rewrite prod_cons.
    rewrite <- range_rows by (auto using prod_nonneg).
    rewrite !map_flat_map. apply flat_map_ext_in. intros x Hx.
    apply in_range in Hx. rewrite !map_map.
    pose proof (prod_nonneg ns Hns) as HP.
    destruct ss as [|s ss].
    + rewrite map_ext with (g := fun _ => 0) by reflexivity.
      rewrite (map_ext (fun j => dot (unravel (n :: ns) (x * prod ns + j)) [])
                       (fun _ => 0)).
      2:{ intros j. reflexivity. }
      rewrite !map_const.
      f_equal. specialize (IH []). apply (f_equal (@length Z)) in IH.
      rewrite !length_map in IH. exact IH.
    + rewrite map_ext with (g := fun coord => x * s + dot coord ss).
      2:{ intros coord. unfold dot. cbn [zip combine map fst snd].
          apply sum_cons. }
      rewrite <- (map_map (fun coord => dot coord ss) (Z.add (x * s))).
      rewrite IH, map_map.
      apply map_ext_in. intros j Hj. apply in_range in Hj.
      unfold dot. cbn [unravel zip combine map fst snd].
      rewrite sum_cons, unravel_shift. f_equal. f_equal.
      rewrite Z.div_add_l by lia. rewrite Z.div_small by lia.
      rewrite Z.add_0_r. symmetry. apply Z.mod_small. lia.
Qed.

Lemma length_product_range (ns : list Z) :
  Forall (fun v => 0 <= v) ns ->
  length (product (map range ns)) = Z.to_nat (prod ns).
Proof.
  intros H.
  pose proof (ranks_row_major ns [] H) as E.
  apply (f_equal (@length Z)) in E.
  rewrite !length_map, length_range in E. exact E.
Qed.

Lemma nonneg_Forall (t : IntTuple) :
  nonneg t = true -> Forall (fun v => 0 <= v) (flatten t).
Proof.
  unfold nonneg. rewrite forallb_forall, Forall_forall.
  intros H x Hx. apply H in Hx. lia.
Qed.

Lemma length_member_ranks (self : _MeshLayout) :
  nonneg (shape self) = true ->
  len (member_ranks self) = numel self.
Proof.
  intros H. apply nonneg_Forall in H.
  unfold member_ranks, len, numel, sizes.
  rewrite length_map, length_product_range by assumption.
  apply Z2Nat.id, prod_nonneg, H.
Qed.

(** C3.  For a layout with non-negative sizes, [member_ranks] is the list
    of the ranks (sum of coordinate times stride) of the positions
    0, ..., numel - 1, where the coordinate of a position is its row-major
    coordinate (leftmost flattened dimension slowest); it has numel
    elements.  Sizes (2,3) with strides (3,1) give [0,1,2,3,4,5] and with
    strides (1,2) give [0,2,4,1,3,5]. *)
Theorem member_ranks_row_major :
  (forall self : _MeshLayout,
      nonneg (shape self) = true ->
      member_ranks self = map (rank_at self) (range (numel self))
      /\ len (member_ranks self) = numel self)
  /\ member_ranks (Layout (Tuple [Int 2; Int 3]) (Tuple [Int 3; Int 1]))
     = [0; 1; 2; 3; 4; 5]
  /\ member_ranks (Layout (Tuple [Int 2; Int 3]) (Tuple [Int 1; Int 2]))
     = [0; 2; 4; 1; 3; 5].
Proof.
  split; [|split; reflexivity].
  intros self H. split.
  - apply (ranks_row_major _ (flatten (strides self))), nonneg_Forall, H.
  - apply length_member_ranks, H.
Qed.

Lemma member_ranks_row_major_witness :
  let self := Layout (Tuple [Int 2; Tuple [Int 1; Int 3]])
                     (Tuple [Int 1; Tuple [Int 7; Int 2]]) in
  member_ranks self = map (rank_at self) (range (numel self))
  /\ len (member_ranks self) = numel self.
Proof.
  apply (proj1 member_ranks_row_major
           (Layout (Tuple [Int 2; Tuple [Int 1; Int 3]])
                   (Tuple [Int 1; Tuple [Int 7; Int 2]]))).
  reflexivity.
Defined.

(** ** Construction *)

Lemma new_unfold (shape0 stride0 : IntTuple) :
  new shape0 stride0
  = if is_tuple shape0 && is_tuple stride0
       && negb (len (flatten shape0) =? len (flatten stride0))
    then raise ValueError
    else ok (Layout shape0 stride0).
Proof.
  unfold new, __post_init__; cbn [shape stride].
  destruct shape0, stride0; cbn [is_tuple is_int negb andb bind]; try reflexivity.
  destruct (negb _); reflexivity.
Qed.

(** C6, as the code has it.  Construction fails exactly when shape and
    stride are both tuples and their flattened lengths differ, and then
    with [ValueError]; a pair with equally many leaves is accepted whatever
    its nesting, and so is a pair in which shape or stride is a bare
    int. *)
Theorem new_fails_iff (shape0 stride0 : IntTuple) :
  (new shape0 stride0 = raise ValueError
   <-> is_tuple shape0 = true /\ is_tuple stride0 = true
       /\ len (flatten shape0) <> len (flatten stride0))
  /\ (new shape0 stride0 = ok (Layout shape0 stride0)
      <-> ~ (is_tuple shape0 = true /\ is_tuple stride0 = true
             /\ len (flatten shape0) <> len (flatten stride0))).
Proof.
  rewrite new_unfold.
  destruct (Z.eqb_spec (len (flatten shape0)) (len (flatten stride0))) as [E|E];
    destruct (is_tuple shape0), (is_tuple stride0); cbn [andb negb];
    (split; split; intros H);
    try reflexivity; try discriminate H; try tauto;
    try (destruct H as (H1 & H2 & H3); first [discriminate | contradiction]);
    try (exfalso; apply H; auto; fail);
    try (intros (H1 & H2 & H3); first [discriminate | contradiction]).
Qed.

(** The nesting of shape ((2,2),3) and stride (1,(2,4)) disagrees, both
    flatten to three leaves, and the layout is built. *)
Lemma new_accepts_different_nesting :
  same_tree (Tuple [Tuple [Int 2; Int 2]; Int 3])
            (Tuple [Int 1; Tuple [Int 2; Int 4]]) = false
  /\ new (Tuple [Tuple [Int 2; Int 2]; Int 3])
         (Tuple [Int 1; Tuple [Int 2; Int 4]])
     = ok (Layout (Tuple [Tuple [Int 2; Int 2]; Int 3])
                  (Tuple [Int 1; Tuple [Int 2; Int 4]])).
Proof. split; reflexivity. Qed.

(** A bare int against a tuple of two leaves: the flattened lengths
    differ (1 and 2) and the layout is built all the same. *)
Example new_accepts_int_with_tuple :
  new (Int 4) (Tuple [Int 1; Int 2])
  = ok (Layout (Int 4) (Tuple [Int 1; Int 2])).
Proof. reflexivity. Qed.

(** ** The stable sort *)

Lemma insert_by_perm {A : Type} (key : A -> Z) (x : A) (l : list A) :
  Permutation (insert_by key x l) (x :: l).
Proof.
  induction l as [|y l IH]; simpl.
  - reflexivity.
  - destruct (key x <=? key y).
    + reflexivity.
    + rewrite IH. apply perm_swap.
Qed.

Lemma sorted_perm {A : Type} (key : A -> Z) (l : list A) :
  Permutation (sorted key l) l.
Proof.
  induction l as [|x l IH]; simpl.
  - reflexivity.
  - rewrite insert_by_perm. constructor. exact IH.
Qed.

Lemma insert_by_ascending {A : Type} (key : A -> Z) (x : A) (l : list A) :
  ascending key l -> ascending key (insert_by key x l).
Proof.
  unfold ascending. induction 1 as [|y l Hl IH Hy]; simpl.
  - repeat constructor.
  - destruct (Z.leb_spec (key x) (key y)) as [Hxy|Hxy].
    + constructor; [constructor; assumption|].
      constructor; [assumption|].
      rewrite Forall_forall in *. intros z Hz. specialize (Hy z Hz). lia.
    + constructor; [assumption|].
      rewrite Forall_forall in *. intros z Hz.
      apply (Permutation_in _ (insert_by_perm key x l)) in Hz.
      destruct Hz as [<-|Hz]; [lia|auto].
Qed.

Lemma sorted_ascending {A : Type} (key : A -> Z) (l : list A) :
  ascending key (sorted key l).
Proof.
  induction l as [|x l IH]; simpl.
  - constructor.
  - apply insert_by_ascending, IH.
Qed.

(** ** [check_non_overlap] *)

Lemma check_walk_filter (a b : Z) (l : list (Z * Z)) :
  check_walk a b l = check_walk a b (filter nontrivial l).
Proof.
  revert a b; induction l as [|[size st] l IH]; intros a b; simpl.
  - reflexivity.
  - unfold nontrivial at 1; cbn [fst].
    destruct (size =? 1) eqn:E; cbn [negb].
    + apply IH.
    + cbn [check_walk]. rewrite E.
      destruct ((b =? st) || (st <? a)); [reflexivity|apply IH].
Qed.

Lemma has_clash_nil : ~ has_clash [].
Proof. intros (l1 & p & q & l2 & E & _). destruct l1; discriminate. Qed.

Lemma has_clash_one (p : Z * Z) : ~ has_clash [p].
Proof.
  intros (l1 & p' & q & l2 & E & _).
  destruct l1 as [|? [|? ?]]; discriminate.
Qed.

Lemma has_clash_cons (p q : Z * Z) (l : list (Z * Z)) :
  has_clash (p :: q :: l) <-> clash p q \/ has_clash (q :: l).
Proof.
  split.
  - intros (l1 & p' & q' & l2 & E & H). destruct l1 as [|x l1].
    + injection E as -> -> _. left. exact H.
    + right. injection E as _ E. exists l1, p', q', l2. auto.
  - intros [H|(l1 & p' & q' & l2 & E & H)].
    + exists [], p, q, l. auto.
    + exists (p :: l1), p', q', l2. rewrite E. auto.
Qed.

(** The walk from a previous pair fails exactly when the first pair
    clashes with the previous one or two neighbours clash. *)
Lemma check_walk_false (a b : Z) (k : list (Z * Z)) :
  Forall (fun d => fst d <> 1) k ->
  check_walk a b k = false
  <-> match k with
      | [] => False
      | q :: _ => b = snd q \/ snd q < a
      end \/ has_clash k.
Proof.
  intros Hk. revert a b.
  induction Hk as [|[size st] k Hq Hk IH]; intros a b.
  - simpl. split; [discriminate|]. intros [[]|H]. destruct (has_clash_nil H).
  - cbn [check_walk fst snd] in *.
    destruct (Z.eqb_spec size 1) as [E|_]; [contradiction|].
    destruct (Z.eqb_spec b st) as [E1|E1]; cbn [orb].
    { split; auto. }
    destruct (Z.ltb_spec st a) as [E2|E2].
    { split; auto. }
    rewrite IH. destruct k as [|q k].
    + split.
      * intros [[]|H]. destruct (has_clash_nil H).
      * intros [[H|H]|H].
        -- congruence.
        -- lia.
        -- destruct (has_clash_one _ H).
    + rewrite has_clash_cons. unfold clash; cbn [fst snd].
      split.
      * intros [[H|H]|H]; auto.
      * intros [[H|H]|[H|H]]; auto; first [congruence|lia].
Qed.

Lemma kept_pairs_nontrivial (self : _MeshLayout) :
  Forall (fun d => fst d <> 1) (kept_pairs self).
Proof.
  apply Forall_forall. intros d Hd. apply filter_In in Hd.
  destruct Hd as [_ Hd]. unfold nontrivial in Hd.
  destruct (Z.eqb_spec (fst d) 1); [discriminate|assumption].
Qed.

Lemma kept_pairs_stride (self : _MeshLayout) (d : Z * Z) :
  In d (kept_pairs self) -> In (snd d) (flatten (stride self)).
Proof.
  intros Hd. apply filter_In in Hd. destruct Hd as [Hd _].
  apply (Permutation_in _ (sorted_perm snd _)) in Hd.
  destruct d as [n s]. apply in_combine_r in Hd. exact Hd.
Qed.

Lemma filter_perm {A : Type} (f : A -> bool) (l m : list A) :
  Permutation l m -> Permutation (filter f l) (filter f m).
Proof.
  induction 1 as [|x l m _ IH|x y l|l m n _ IH1 _ IH2]; simpl.
  - constructor.
  - destruct (f x); [constructor|]; exact IH.
  - destruct (f x), (f y); try reflexivity. apply perm_swap.
  - rewrite IH1. exact IH2.
Qed.

Lemma filter_ascending {A : Type} (key : A -> Z) (f : A -> bool) (l : list A) :
  ascending key l -> ascending key (filter f l).
Proof.
  unfold ascending. induction 1 as [|x l Hl IH Hx]; simpl.
  - constructor.
  - destruct (f x); [|exact IH]. constructor; [exact IH|].
    rewrite Forall_forall in *. intros y Hy. apply filter_In in Hy.
    apply Hx, Hy.
Qed.

Lemma kept_pairs_sorted (self : _MeshLayout) :
  ascending snd (kept_pairs self)
  /\ Permutation (kept_pairs self)
                 (filter nontrivial (sizes_and_strides self)).
Proof.
  split.
  - apply filter_ascending, sorted_ascending.
  - apply filter_perm, sorted_perm.
Qed.

(** C5.  For a layout with non-negative strides, [check_non_overlap] is
    false exactly when, among the (size, stride) pairs sorted by stride
    with the size-1 pairs left out ([kept_pairs], ascending and a
    permutation of the layout's other pairs), some pair has the stride of
    the pair before it or a stride below that pair's span, and true
    otherwise; it is a total function to [bool], so it raises on no
    input.  Sizes (2,3)
    with strides (6,1) give true, with strides (2,1) false. *)
Theorem check_non_overlap_spec :
  (forall self : _MeshLayout,
      nonneg (stride self) = true ->
      (check_non_overlap self = false <-> has_clash (kept_pairs self))
      /\ (check_non_overlap self = true <-> ~ has_clash (kept_pairs self)))
  /\ (forall self : _MeshLayout,
         ascending snd (kept_pairs self)
         /\ Permutation (kept_pairs self)
                        (filter nontrivial (sizes_and_strides self)))
  /\ check_non_overlap (Layout (Tuple [Int 2; Int 3]) (Tuple [Int 6; Int 1]))
     = true
  /\ check_non_overlap (Layout (Tuple [Int 2; Int 3]) (Tuple [Int 2; Int 1]))
     = false.
Proof.
  split; [|split; [apply kept_pairs_sorted|split; reflexivity]].
  intros self Hs.
  assert (F : check_non_overlap self = false <-> has_clash (kept_pairs self)).
  { unfold check_non_overlap. rewrite check_walk_filter.
    fold (kept_pairs self).
    rewrite (check_walk_false _ _ _ (kept_pairs_nontrivial self)).
    split; [|auto]. intros [H|H]; [|exact H]. exfalso.
    destruct (kept_pairs self) as [|q k] eqn:E; [exact H|].
    assert (Hq : In (snd q) (flatten (stride self))).
    { apply kept_pairs_stride. rewrite E. left. reflexivity. }
    apply nonneg_Forall in Hs. rewrite Forall_forall in Hs.
    specialize (Hs _ Hq). lia. }
  split; [exact F|].
  rewrite <- F. destruct (check_non_overlap self); split; congruence.
Qed.

Lemma check_non_overlap_spec_witness :
  (check_non_overlap (Layout (Tuple [Int 3; Int 1; Int 2])
                             (Tuple [Int 1; Int 0; Int 2])) = false
   <-> has_clash (kept_pairs (Layout (Tuple [Int 3; Int 1; Int 2])
                                     (Tuple [Int 1; Int 0; Int 2]))))
  /\ (check_non_overlap (Layout (Tuple [Int 3; Int 1; Int 2])
                                (Tuple [Int 1; Int 0; Int 2])) = true
      <-> ~ has_clash (kept_pairs (Layout (Tuple [Int 3; Int 1; Int 2])
                                          (Tuple [Int 1; Int 0; Int 2])))).
Proof.
  apply (proj1 check_non_overlap_spec
           (Layout (Tuple [Int 3; Int 1; Int 2]) (Tuple [Int 1; Int 0; Int 2]))).
  reflexivity.
Defined.

(** C10.  A layout whose flattened view is the single pair (n, 0) with
    n > 1 passes [check_non_overlap], although its ranks are n times the
    rank 0. *)
Theorem zero_stride_passes_check (shape0 stride0 : IntTuple) (n : Z) :
  flatten shape0 = [n] -> flatten stride0 = [0] -> 1 < n ->
  check_non_overlap (Layout shape0 stride0) = true
  /\ member_ranks (Layout shape0 stride0) = repeat 0 (Z.to_nat n).
Proof.
  intros Hsh Hst Hn. split.
  - unfold check_non_overlap, sizes_and_strides; cbn [shape stride].
    rewrite Hsh, Hst. cbn.
    destruct (Z.eqb_spec n 1); [lia|reflexivity].
  - unfold member_ranks, sizes, strides; cbn [shape stride].
    rewrite Hsh, Hst. cbn [map product].
    rewrite <- (length_range n). induction (range n) as [|x l IH].
    + reflexivity.
    + cbn [flat_map map app length repeat]. rewrite IH.
      f_equal. unfold sum. cbn. lia.
Qed.

Lemma zero_stride_passes_check_witness :
  check_non_overlap (Layout (Tuple [Int 3]) (Tuple [Int 0])) = true
  /\ member_ranks (Layout (Tuple [Int 3]) (Tuple [Int 0])) = [0; 0; 0].
Proof.
  apply (zero_stride_passes_check (Tuple [Int 3]) (Tuple [Int 0]) 3).
  - reflexivity.
  - reflexivity.
  - lia.
Defined.

(** ** [global_ranks] *)

Section Global_ranks.

Variable pycute_complement : _MeshLayout -> Z -> result _MeshLayout.

(** C4.  When [complement] returns [c], [global_ranks] returns one group
    for each element of [member_ranks c], in that order, and the group of
    an offset is [member_ranks self] with the offset added to each
    element; with non-negative sizes these are [numel c] groups of
    [numel self] elements each. *)
Theorem global_ranks_groups (self c : _MeshLayout) (world_size : Z) :
  complement pycute_complement self world_size = ok c ->
  global_ranks pycute_complement self world_size = ok (shifted_groups self c)
  /\ (nonneg (shape self) = true -> nonneg (shape c) = true ->
      len (shifted_groups self c) = numel c
      /\ Forall (fun group => len group = numel self) (shifted_groups self c)).
Proof.
  intros Hc. unfold global_ranks. rewrite Hc. cbn [bind]. split.
  - reflexivity.
  - intros Hs Hcs. unfold shifted_groups. split.
    + unfold len. rewrite length_map. apply length_member_ranks, Hcs.
    + apply Forall_forall. intros g Hg. apply in_map_iff in Hg.
      destruct Hg as (o & <- & _). unfold len. rewrite length_map.
      apply length_member_ranks, Hs.
Qed.

End Global_ranks.

Lemma global_ranks_groups_witness :
  global_ranks Pycute.complement (Layout (Tuple [Int 4]) (Tuple [Int 1])) 16
  = ok (shifted_groups (Layout (Tuple [Int 4]) (Tuple [Int 1]))
                       (Layout (Tuple [Int 4]) (Tuple [Int 4])))
  /\ len (shifted_groups (Layout (Tuple [Int 4]) (Tuple [Int 1]))
                         (Layout (Tuple [Int 4]) (Tuple [Int 4])))
     = numel (Layout (Tuple [Int 4]) (Tuple [Int 4]))
  /\ Forall (fun group =>
               len group = numel (Layout (Tuple [Int 4]) (Tuple [Int 1])))
            (shifted_groups (Layout (Tuple [Int 4]) (Tuple [Int 1]))
                            (Layout (Tuple [Int 4]) (Tuple [Int 4]))).
Proof.
  destruct (global_ranks_groups Pycute.complement
              (Layout (Tuple [Int 4]) (Tuple [Int 1]))
              (Layout (Tuple [Int 4]) (Tuple [Int 4])) 16 eq_refl) as [H1 H2].
  split; [exact H1|]. apply H2; reflexivity.
Defined.

(** The groups of the method's docstring: size 4, stride 1, world size
    16. *)
Example global_ranks_docstring :
  global_ranks Pycute.complement (Layout (Tuple [Int 4]) (Tuple [Int 1])) 16
  = ok [[0; 1; 2; 3]; [4; 5; 6; 7]; [8; 9; 10; 11]; [12; 13; 14; 15]].
Proof. reflexivity. Qed.

(** ** The complement of (4):(1) in a world of 8 *)

(** C7.  For shape (4,) and stride (1,), the complement for world size 8
    is shape (2,), stride (4,); the two groups it gives are [0,1,2,3] and
    [4,5,6,7], and the layout made of the complement's dimension followed
    by the layout's own enumerates 0, ..., 7, each once. *)
Theorem complement_of_4_in_8 :
  complement Pycute.complement (Layout (Tuple [Int 4]) (Tuple [Int 1])) 8
  = ok (Layout (Tuple [Int 2]) (Tuple [Int 4]))
  /\ global_ranks Pycute.complement (Layout (Tuple [Int 4]) (Tuple [Int 1])) 8
     = ok [[0; 1; 2; 3]; [4; 5; 6; 7]]
  /\ member_ranks (Layout (Tuple [Int 2; Int 4]) (Tuple [Int 4; Int 1]))
     = range 8
  /\ check_non_overlap (Layout (Tuple [Int 2; Int 4]) (Tuple [Int 4; Int 1]))
     = true.
Proof. repeat split. Qed.

(** ** [to_remapping_tensor] and the world size *)

(** A 2 x 2 mesh holding 0..3 and world size 5: not a multiple of 4, and
    the groups come back. *)
Lemma to_remapping_tensor_accepts_5_for_4 :
  5 mod tensor_numel (mkTensor [2; 2] [0; 1; 2; 3]) = 1
  /\ to_remapping_tensor Pycute.complement
       (Layout (Tuple [Int 2]) (Tuple [Int 2]))
       (mkTensor [2; 2] [0; 1; 2; 3]) 5
     = ok (mkTensor [2; 2] [0; 2; 1; 3]).
Proof. split; reflexivity. Qed.

(** The same with ranks 10, 20, 30, 40, which goes through the rescaling
    branch. *)
Example to_remapping_tensor_accepts_5_for_4_gather :
  to_remapping_tensor Pycute.complement
    (Layout (Tuple [Int 2]) (Tuple [Int 2]))
    (mkTensor [2; 2] [10; 20; 30; 40]) 5
  = ok (mkTensor [2; 2] [10; 30; 20; 40]).
Proof. reflexivity. Qed.

Section Remapping.

Variable pycute_complement : _MeshLayout -> Z -> result _MeshLayout.

(** C9, as the code has it.  With n the element count of the mesh: on a
    mesh holding exactly 0, ..., n-1 the result of [to_remapping_tensor]
    is the same for every world size; on another mesh, two world sizes
    that both differ from n and have the same quotient world_size // n
    give the same result (the same tensor or the same error), multiples
    of n or not. *)
Theorem to_remapping_tensor_world_size
        (self : _MeshLayout) (mesh : Tensor) (w w' : Z) :
  is_arange mesh = true
  \/ (w <> tensor_numel mesh /\ w' <> tensor_numel mesh
      /\ w / tensor_numel mesh = w' / tensor_numel mesh) ->
  to_remapping_tensor pycute_complement self mesh w
  = to_remapping_tensor pycute_complement self mesh w'.
Proof.
  intros H. unfold to_remapping_tensor.
  destruct (global_ranks pycute_complement self (tensor_numel mesh))
    as [e|groups]; [reflexivity|]. cbn [bind].
  destruct (torch_tensor groups) as [e|t0]; [reflexivity|]. cbn [bind].
  destruct (view_groups t0 (flatten (sizes self))) as [e|t]; [reflexivity|].
  cbn [bind].
  destruct (is_arange mesh); [reflexivity|].
  destruct H as [H|(Hw & Hw' & Hq)]; [discriminate|].
  destruct (Z.eqb_spec (tensor_numel mesh) w) as [E|_]; [congruence|].
  destruct (Z.eqb_spec (tensor_numel mesh) w') as [E|_]; [congruence|].
  cbn [negb]. unfold floordiv. rewrite Hq. reflexivity.
Qed.

End Remapping.

Lemma to_remapping_tensor_world_size_witness :
  to_remapping_tensor Pycute.complement
    (Layout (Tuple [Int 2]) (Tuple [Int 2]))
    (mkTensor [2; 2] [10; 20; 30; 40]) 9
  = to_remapping_tensor Pycute.complement
      (Layout (Tuple [Int 2]) (Tuple [Int 2]))
      (mkTensor [2; 2] [10; 20; 30; 40]) 11.
Proof.
  apply (to_remapping_tensor_world_size Pycute.complement
           (Layout (Tuple [Int 2]) (Tuple [Int 2]))
           (mkTensor [2; 2] [10; 20; 30; 40]) 9 11).
  right. cbn. repeat split; discriminate.
Defined.

(** ** Ranks of a flattened view *)

Lemma dot_cons (x s : Z) (coord ss : list Z) :
  dot (x :: coord) (s :: ss) = x * s + dot coord ss.
Proof. unfold dot. cbn [zip combine map fst snd]. apply sum_cons. Qed.

Lemma ranks_of_zip (ns ss : list Z) :
  length ns = length ss ->
  map (fun coord => dot coord ss) (product (map range ns))
  = ranks_of (zip ns ss).
Proof.
  revert ss; induction ns as [|n ns IH]; intros [|s ss] E; try discriminate.
  - reflexivity.
  - cbn [map product zip combine ranks_of].
    rewrite map_flat_map. apply flat_map_ext_in. intros x _.
    rewrite map_map.
    rewrite (map_ext _ (fun coord => x * s + dot coord ss))
      by (intros; apply dot_cons).
    rewrite <- (map_map (fun coord => dot coord ss) (Z.add (x * s))).
    f_equal. apply IH. injection E as E. exact E.
Qed.

Lemma same_length_eq (self : _MeshLayout) :
  same_length self = true ->
  length (flatten (shape self)) = length (flatten (stride self)).
Proof. unfold same_length, len. intros H. apply Z.eqb_eq in H. lia. Qed.

Lemma member_ranks_dims (self : _MeshLayout) :
  same_length self = true ->
  member_ranks self = ranks_of (sizes_and_strides self).
Proof.
  intros H. apply (ranks_of_zip (flatten (sizes self)) (flatten (strides self))).
  apply same_length_eq, H.
Qed.

Lemma flatten_ints (f : Z * Z -> Z) (ds : list (Z * Z)) :
  flatten (Tuple (map (fun d => Int (f d)) ds)) = map f ds.
Proof.
  cbn [flatten]. induction ds as [|d ds IH]; simpl; [reflexivity|].
  f_equal. exact IH.
Qed.

Lemma zip_fst_snd {A B : Type} (ds : list (A * B)) :
  zip (map fst ds) (map snd ds) = ds.
Proof.
  induction ds as [|[a b] ds IH]; simpl; [reflexivity|].
  f_equal. exact IH.
Qed.

Lemma sizes_and_strides_of_dims (ds : list (Z * Z)) :
  sizes_and_strides (Pycute.of_dims ds) = ds.
Proof.
  unfold sizes_and_strides, Pycute.of_dims; cbn [shape stride].
  rewrite !flatten_ints. apply zip_fst_snd.
Qed.

Lemma same_length_of_dims (ds : list (Z * Z)) :
  same_length (Pycute.of_dims ds) = true.
Proof.
  unfold same_length, Pycute.of_dims; cbn [shape stride].
  rewrite !flatten_ints. unfold len. rewrite !length_map. apply Z.eqb_refl.
Qed.

Lemma member_ranks_of_dims (ds : list (Z * Z)) :
  member_ranks (Pycute.of_dims ds) = ranks_of ds.
Proof.
  rewrite member_ranks_dims by apply same_length_of_dims.
  rewrite sizes_and_strides_of_dims. reflexivity.
Qed.

Lemma new_of_dims (ds : list (Z * Z)) :
  new (shape (Pycute.of_dims ds)) (stride (Pycute.of_dims ds))
  = ok (Pycute.of_dims ds).
Proof.
  rewrite new_unfold. fold (same_length (Pycute.of_dims ds)).
  rewrite same_length_of_dims. rewrite andb_false_r. reflexivity.
Qed.

Lemma map_add_0 (l : list Z) : map (Z.add 0) l = l.
Proof. rewrite <- (map_id l) at 2. apply map_ext. intros; lia. Qed.

Lemma ranks_of_filter (ds : list (Z * Z)) :
  ranks_of (filter nontrivial ds) = ranks_of ds.
Proof.
  induction ds as [|[n s] ds IH]; [reflexivity|].
  cbn [filter]. unfold nontrivial at 1; cbn [fst].
  destruct (Z.eqb_spec n 1) as [->|_]; cbn [negb].
  - cbn [ranks_of]. change (range 1) with [0]. cbn [flat_map].
    rewrite app_nil_r, Z.mul_0_l, map_add_0. exact IH.
  - cbn [ranks_of]. rewrite IH. reflexivity.
Qed.

(** ** [coalesce] keeps the ranks *)

Lemma flat_map_bind {A B C : Type} (f : B -> list C) (g : A -> list B)
      (l : list A) :
  flat_map f (flat_map g l) = flat_map (fun x => flat_map f (g x)) l.
Proof.
  induction l as [|x l IH]; simpl; [reflexivity|].
  rewrite flat_map_app, IH. reflexivity.
Qed.

Lemma flat_map_of_map {A B C : Type} (f : B -> list C) (g : A -> B)
      (l : list A) :
  flat_map f (map g l) = flat_map (fun x => f (g x)) l.
Proof.
  induction l as [|x l IH]; simpl; [reflexivity|].
  rewrite IH. reflexivity.
Qed.

Lemma ranks_of_merge (ds : list (Z * Z)) :
  Forall (fun d => 0 <= fst d) ds ->
  ranks_of (Pycute.merge_dims ds) = ranks_of ds
  /\ Forall (fun d => 0 <= fst d) (Pycute.merge_dims ds).
Proof.
  induction 1 as [|[n s] ds Hn Hds [IHr IHf]]; [split; [reflexivity|constructor]|].
  cbn [fst] in Hn. cbn [Pycute.merge_dims].
  destruct (Pycute.merge_dims ds) as [|[n' s'] more].
  - split; [|repeat constructor; assumption].
    cbn [ranks_of] in *. rewrite <- IHr. reflexivity.
  - apply Forall_cons_iff in IHf. destruct IHf as [Hn' Hmore]. cbn [fst] in Hn'.
    destruct (Z.eqb_spec (s' * n') s) as [E|_].
    + split; [|constructor; [cbn [fst]; nia|assumption]].
      cbn [ranks_of]. rewrite <- IHr. cbn [ranks_of].
      rewrite <- range_rows by assumption.
      rewrite flat_map_bind.
      apply flat_map_ext_in. intros x _.
      rewrite map_flat_map, flat_map_of_map.
      apply flat_map_ext_in. intros y _.
      rewrite map_map. apply map_ext. intros r. subst s. lia.
    + split; [|repeat (constructor; try assumption)].
      cbn [ranks_of] in *. rewrite <- IHr. reflexivity.
Qed.

Lemma merge_dims_nil (ds : list (Z * Z)) :
  Pycute.merge_dims ds = [] -> ds = [].
Proof.
  destruct ds as [|[n s] ds]; [reflexivity|]. cbn [Pycute.merge_dims].
  destruct (Pycute.merge_dims ds) as [|[n' s'] more]; [discriminate|].
  destruct (s' * n' =? s); discriminate.
Qed.

Lemma all_trivial_prod (ns ss : list Z) :
  length ns = length ss ->
  filter nontrivial (zip ns ss) = [] -> prod ns = 1.
Proof.
  revert ss; induction ns as [|n ns IH]; intros [|s ss] E; try discriminate.
  - reflexivity.
  - cbn [zip combine filter]. unfold nontrivial at 1; cbn [fst].
    destruct (Z.eqb_spec n 1) as [->|_]; cbn [negb]; [|discriminate].
    intros H. rewrite prod_cons, (IH ss); [reflexivity| |exact H].
    injection E as E. exact E.
Qed.

Lemma sizes_nonneg (self : _MeshLayout) :
  nonneg (shape self) = true ->
  Forall (fun d => 0 <= fst d) (sizes_and_strides self).
Proof.
  intros H. apply nonneg_Forall in H. rewrite Forall_forall in *.
  intros [n s] Hd. apply in_combine_l in Hd. apply H, Hd.
Qed.

Lemma Forall_filter {A : Type} (P : A -> Prop) (f : A -> bool) (l : list A) :
  Forall P l -> Forall P (filter f l).
Proof.
  rewrite !Forall_forall. intros H x Hx. apply filter_In in Hx. apply H, Hx.
Qed.

(** C2.  For a layout with as many size leaves as stride leaves and no
    negative size, [coalesce] (over the coalesce described by the spec)
    returns a layout with the same [member_ranks]: the same integers in
    the same order. *)
Theorem coalesce_keeps_member_ranks (self : _MeshLayout) :
  same_length self = true -> nonneg (shape self) = true ->
  exists c, coalesce Pycute.coalesce self = ok c
            /\ member_ranks c = member_ranks self.
Proof.
  intros Hlen Hnn.
  pose proof (ranks_of_merge _ (Forall_filter _ nontrivial _
                                  (sizes_nonneg self Hnn))) as [Hr _].
  rewrite ranks_of_filter, <- member_ranks_dims in Hr by assumption.
  unfold coalesce, Pycute.coalesce.
  destruct (Pycute.merge_dims _) as [|d k] eqn:E.
  - apply merge_dims_nil in E.
    unfold numel. rewrite (all_trivial_prod _ _ (same_length_eq self Hlen) E).
    exists (Layout (Int 1) (Int 1)). split; [reflexivity|].
    rewrite <- Hr. reflexivity.
  - unfold ok at 1. cbn [bind]. rewrite new_of_dims. exists (Pycute.of_dims (d :: k)).
    split; [reflexivity|]. rewrite member_ranks_of_dims. exact Hr.
Qed.

Lemma coalesce_keeps_member_ranks_witness :
  exists c, coalesce Pycute.coalesce
                     (Layout (Tuple [Int 3; Tuple [Int 1; Int 2]])
                             (Tuple [Int 2; Tuple [Int 5; Int 1]])) = ok c
            /\ member_ranks c
               = member_ranks (Layout (Tuple [Int 3; Tuple [Int 1; Int 2]])
                                      (Tuple [Int 2; Tuple [Int 5; Int 1]])).
Proof.
  apply (coalesce_keeps_member_ranks
           (Layout (Tuple [Int 3; Tuple [Int 1; Int 2]])
                   (Tuple [Int 2; Tuple [Int 5; Int 1]]))); reflexivity.
Defined.

(** The spec's two examples of coalesce. *)
Example coalesce_examples :
  coalesce Pycute.coalesce (Layout (Tuple [Int 3; Int 2]) (Tuple [Int 2; Int 1]))
  = ok (Layout (Tuple [Int 6]) (Tuple [Int 1]))
  /\ coalesce Pycute.coalesce
              (Layout (Tuple [Int 3; Int 2]) (Tuple [Int 4; Int 1]))
     = ok (Layout (Tuple [Int 3; Int 2]) (Tuple [Int 4; Int 1])).
Proof. split; reflexivity. Qed.

(** ** Composition and strides *)

Lemma list_eqb_eq (xs ys : list Z) : list_eqb xs ys = true <-> xs = ys.
Proof.
  revert ys; induction xs as [|x xs IH]; intros [|y ys]; simpl;
    try (split; [discriminate|discriminate]); [split; reflexivity|].
  rewrite andb_true_iff, IH, Z.eqb_eq. split.
  - intros [-> ->]. reflexivity.
  - intros E. injection E as -> ->. auto.
Qed.

Lemma nth_range (n : Z) (k : nat) :
  (k < Z.to_nat n)%nat -> nth k (range n) 0 = Z.of_nat k.
Proof.
  intros H. unfold range.
  change 0 with (Z.of_nat 0). rewrite map_nth, seq_nth by assumption.
  reflexivity.
Qed.

Lemma ranks_of_scaled (s : Z) (ns ss : list Z) :
  map (Z.mul s) (ranks_of (zip ns ss)) = ranks_of (zip ns (map (Z.mul s) ss)).
Proof.
  revert ss; induction ns as [|n ns IH]; intros [|a ss];
    cbn [zip combine map ranks_of]; try (f_equal; lia).
  rewrite map_flat_map. apply flat_map_ext_in. intros c _.
  rewrite <- IH, !map_map. apply map_ext. intros r. lia.
Qed.

Lemma length_ranks_of_zip (ns ss ss' : list Z) :
  length ss = length ns -> length ss' = length ns ->
  length (ranks_of (zip ns ss)) = length (ranks_of (zip ns ss')).
Proof.
  revert ss ss'; induction ns as [|n ns IH]; intros [|a ss] [|b ss'] E E';
    try discriminate; [reflexivity|].
  cbn [zip combine ranks_of]. injection E as E. injection E' as E'.
  specialize (IH ss ss' E E'). unfold zip in IH.
  induction (range n) as [|c l IHl]; [reflexivity|].
  cbn [flat_map]. rewrite !length_app, !length_map, IH, IHl. reflexivity.
Qed.

Lemma ranks_of_nonempty (ns ss : list Z) :
  Forall (fun v => 1 <= v) ns -> length ss = length ns ->
  ranks_of (zip ns ss) <> [].
Proof.
  intros H; revert ss; induction H as [|n ns Hn Hns IH]; intros [|a ss] E;
    try discriminate.
  cbn [zip combine ranks_of].
  replace n with (1 + (n - 1)) by lia.
  rewrite range_add by lia. change (range 1) with [0]. cbn [app flat_map].
  injection E as E. specialize (IH ss E). unfold zip in IH.
  destruct (ranks_of (combine ns ss)); [contradiction|discriminate].
Qed.

Lemma app_inj_length {A : Type} (l1 l1' l2 l2' : list A) :
  length l1 = length l1' -> l1 ++ l2 = l1' ++ l2' -> l1 = l1' /\ l2 = l2'.
Proof.
  revert l1'; induction l1 as [|x l1 IH]; intros [|y l1'] E H; try discriminate.
  - auto.
  - injection E as E. injection H as -> H.
    destruct (IH l1' E H) as [-> ->]. auto.
Qed.

(** With sizes of at least 1, the ranks fix the stride of every dimension
    of size at least 2. *)
Lemma strides_determined (ns ss ss' : list Z) (i : nat) :
  Forall (fun v => 1 <= v) ns ->
  length ss = length ns -> length ss' = length ns ->
  ranks_of (zip ns ss) = ranks_of (zip ns ss') ->
  2 <= nth i ns 0 -> nth i ss 0 = nth i ss' 0.
Proof.
  intros H; revert ss ss' i;
    induction H as [|n ns Hn Hns IH]; intros [|a ss] [|b ss'] i E E' HR Hi;
    try discriminate.
  - destruct i; simpl in Hi; lia.
  - injection E as E. injection E' as E'.
    cbn [zip combine ranks_of] in HR.
    replace n with (1 + (n - 1)) in HR by lia.
    rewrite range_add in HR by lia. change (range 1) with [0] in HR.
    cbn [app flat_map] in HR.
    rewrite !Z.mul_0_l, !map_add_0 in HR.
    apply app_inj_length in HR; [|apply (length_ranks_of_zip ns ss ss' E E')].
    destruct HR as [HR0 HR1].
    destruct i as [|i]; [|exact (IH ss ss' i E E' HR0 Hi)].
    cbn [nth] in *.
    replace (n - 1) with (1 + (n - 2)) in HR1 by lia.
    rewrite range_add in HR1 by lia. change (range 1) with [0] in HR1.
    cbn [app map flat_map] in HR1.
    apply app_inj_length in HR1.
    2:{ rewrite !length_map. apply (length_ranks_of_zip ns ss ss' E E'). }
    destruct HR1 as [HR1 _]. unfold zip in *. rewrite <- HR0 in HR1.
    pose proof (ranks_of_nonempty ns ss Hns E) as NE. unfold zip in NE.
    destruct (ranks_of (combine ns ss)) as [|r R]; [contradiction|].
    cbn [map] in HR1. change (1 + 0) with 1 in HR1.
    rewrite !Z.mul_1_l in HR1. injection HR1 as Hhead _. lia.
Qed.

Lemma positive_Forall (t : IntTuple) :
  positive t = true -> Forall (fun v => 1 <= v) (flatten t).
Proof.
  unfold positive. rewrite forallb_forall, Forall_forall.
  intros H x Hx. apply H in Hx. lia.
Qed.

Lemma nth_map_mul (s : Z) (l : list Z) (k : nat) :
  nth k (map (Z.mul s) l) 0 = s * nth k l 0.
Proof.
  revert k; induction l as [|x l IH]; intros [|k]; cbn [map nth];
    try lia; apply IH.
Qed.

Lemma is_composition_inv (self other res : _MeshLayout) :
  Pycute.is_composition self other res = true ->
  flatten (shape res) = flatten (shape other)
  /\ (forall r, In r (member_ranks other) ->
                0 <= r < len (member_ranks self))
  /\ member_ranks res = map (Pycute.at_index self) (member_ranks other).
Proof.
  unfold Pycute.is_composition. rewrite !andb_true_iff, !list_eqb_eq.
  intros [[H1 H2] H3]. repeat split; try assumption;
    rewrite forallb_forall in H2; specialize (H2 r H);
    unfold Pycute.valid_index in H2; lia.
Qed.

(** C8 at self = (2,2):(1,2), other = (2):(2).  The docstring of
    [composition] says that the stride of the composition is not smaller
    than the stride of the right layout.  Here the composed layout is
    (2):(1): at coordinate 1 it must give self's value at index 2, which
    is 1.  Its stride 1 is below other's stride 2. *)
Lemma composed_stride_below_other :
  Pycute.is_composition (Layout (Tuple [Int 2; Int 2]) (Tuple [Int 1; Int 2]))
                        (Layout (Tuple [Int 2]) (Tuple [Int 2]))
                        (Layout (Tuple [Int 2]) (Tuple [Int 1])) = true
  /\ nth 0 (flatten (stride (Layout (Tuple [Int 2]) (Tuple [Int 1])))) 0
     < nth 0 (flatten (stride (Layout (Tuple [Int 2]) (Tuple [Int 2])))) 0.
Proof. split; reflexivity. Qed.

(** No other stride will do there. *)
Example composed_stride_forced (t : Z) :
  Pycute.is_composition (Layout (Tuple [Int 2; Int 2]) (Tuple [Int 1; Int 2]))
                        (Layout (Tuple [Int 2]) (Tuple [Int 2]))
                        (Layout (Tuple [Int 2]) (Tuple [Int t])) = true ->
  t = 1.
Proof.
  intros H. apply is_composition_inv in H. destruct H as (_ & _ & H).
  cbv in H. injection H as H. destruct t; cbv in H; congruence.
Qed.

(** A case with a formula for the composed stride.  Let [self] enumerate
    0, s, 2s, ... with s >= 1 (it is, or coalesces to, one dimension of
    stride s, as in the method's docstring), and let [res] be the
    composition of [self] with [other], whose sizes are at least 1 and
    whose strides are not negative.  Then on every dimension of size at
    least 2 the stride of [res] is s times the stride of [other], hence
    not smaller. *)
Theorem composed_stride_scaled (self other res : _MeshLayout) (s : Z) (i : nat) :
  Pycute.is_composition self other res = true ->
  member_ranks self = map (Z.mul s) (range (len (member_ranks self))) ->
  1 <= s ->
  same_length other = true -> same_length res = true ->
  positive (shape other) = true -> nonneg (stride other) = true ->
  2 <= nth i (flatten (shape other)) 0 ->
  nth i (flatten (stride res)) 0 = s * nth i (flatten (stride other)) 0
  /\ nth i (flatten (stride other)) 0 <= nth i (flatten (stride res)) 0.
Proof.
  intros Hc Hself Hs Lo Lr Hpos Hnn Hi.
  apply is_composition_inv in Hc. destruct Hc as (Hsh & Hdom & Hres).
  assert (Hres' : member_ranks res = map (Z.mul s) (member_ranks other)).
  { rewrite Hres. apply map_ext_in. intros r Hr. specialize (Hdom r Hr).
    unfold Pycute.at_index. rewrite Hself, nth_map_mul.
    rewrite nth_range; unfold len in *; lia. }
  rewrite (member_ranks_dims res Lr), (member_ranks_dims other Lo) in Hres'.
  unfold sizes_and_strides in Hres'. rewrite Hsh, ranks_of_scaled in Hres'.
  apply same_length_eq in Lo, Lr. rewrite Hsh in Lr.
  assert (E : nth i (flatten (stride res)) 0
              = s * nth i (flatten (stride other)) 0).
  { rewrite <- nth_map_mul.
    apply (strides_determined (flatten (shape other)));
      [apply positive_Forall, Hpos|symmetry; exact Lr| |exact Hres'|exact Hi].
    rewrite length_map. symmetry; exact Lo. }
  split; [exact E|]. rewrite E.
  assert (0 <= nth i (flatten (stride other)) 0); [|nia].
  apply nonneg_Forall in Hnn. rewrite Forall_forall in Hnn.
  destruct (nth_in_or_default i (flatten (stride other)) 0) as [H | ->];
    [apply Hnn, H|lia].
Qed.

Lemma composed_stride_scaled_witness :
  nth 0 (flatten (stride (Layout (Tuple [Int 3]) (Tuple [Int 4])))) 0
  = 2 * nth 0 (flatten (stride (Layout (Tuple [Int 3]) (Tuple [Int 2])))) 0
  /\ nth 0 (flatten (stride (Layout (Tuple [Int 3]) (Tuple [Int 2])))) 0
     <= nth 0 (flatten (stride (Layout (Tuple [Int 3]) (Tuple [Int 4])))) 0.
Proof.
  apply (composed_stride_scaled
           (Layout (Tuple [Int 3; Int 2]) (Tuple [Int 4; Int 2]))
           (Layout (Tuple [Int 3]) (Tuple [Int 2]))
           (Layout (Tuple [Int 3]) (Tuple [Int 4])) 2 0);
    first [reflexivity | lia | (cbn; lia)].
Defined.

(** The docstring's example: self = (6,2):(2,1), layout = (3):(2),
    composition (3):(2). *)
Example composition_docstring :
  Pycute.is_composition (Layout (Tuple [Int 6; Int 2]) (Tuple [Int 2; Int 1]))
                        (Layout (Tuple [Int 3]) (Tuple [Int 2]))
                        (Layout (Tuple [Int 3]) (Tuple [Int 2])) = true.
Proof. reflexivity. Qed.

(** ** Ranks do not depend on the order of the dimensions *)

Lemma flat_map_perm_ext {A B : Type} (f g : A -> list B) (l : list A) :
  (forall x, In x l -> Permutation (f x) (g x)) ->
  Permutation (flat_map f l) (flat_map g l).
Proof.
  induction l as [|x l IH]; intros H; simpl.
  - constructor.
  - apply Permutation_app; [apply H; left; reflexivity|].
    apply IH. intros y Hy. apply H. right. exact Hy.
Qed.

Lemma flat_map_app_perm {A B : Type} (g h : A -> list B) (l : list A) :
  Permutation (flat_map (fun x => g x ++ h x) l)
              (flat_map g l ++ flat_map h l).
Proof.
  induction l as [|x l IH]; simpl.
  - constructor.
  - rewrite IH, <- !app_assoc. apply Permutation_app_head.
    rewrite !app_assoc. apply Permutation_app_tail, Permutation_app_comm.
Qed.

Lemma flat_map_swap {A B C : Type} (f : A -> B -> list C)
      (la : list A) (lb : list B) :
  Permutation (flat_map (fun a => flat_map (fun b => f a b) lb) la)
              (flat_map (fun b => flat_map (fun a => f a b) la) lb).
Proof.
  induction la as [|a la IH]; simpl.
  - induction lb as [|b lb IHb]; simpl; [constructor|exact IHb].
  - rewrite IH. symmetry. apply flat_map_app_perm.
Qed.

Lemma ranks_of_perm (ds ds' : list (Z * Z)) :
  Permutation ds ds' -> Permutation (ranks_of ds) (ranks_of ds').
Proof.
  induction 1 as [|[n s] ds ds' _ IH|[n s] [n' s'] ds|ds ds' ds'' _ IH1 _ IH2].
  - reflexivity.
  - cbn [ranks_of]. apply flat_map_perm_ext. intros c _.
    apply Permutation_map, IH.
  - cbn [ranks_of].
    rewrite (flat_map_ext_in _
               (fun c => flat_map (fun c' => map (fun r => c * s' + (c' * s + r))
                                                 (ranks_of ds)) (range n))).
    2:{ intros c _. rewrite map_flat_map. apply flat_map_ext_in. intros c' _.
        rewrite map_map. reflexivity. }
    rewrite flat_map_swap. apply Permutation_refl'.
    apply flat_map_ext_in. intros c' _.
    rewrite map_flat_map. apply flat_map_ext_in. intros c _.
    rewrite map_map. apply map_ext. intros r. lia.
  - rewrite IH1. exact IH2.
Qed.

Lemma ranks_of_app (a b : list (Z * Z)) :
  ranks_of (a ++ b)
  = flat_map (fun o => map (Z.add o) (ranks_of b)) (ranks_of a).
Proof.
  induction a as [|[n s] a IH].
  - cbn [app ranks_of flat_map]. rewrite app_nil_r, map_add_0. reflexivity.
  - cbn [app ranks_of]. rewrite flat_map_bind.
    apply flat_map_ext_in. intros c _.
    rewrite IH, map_flat_map, flat_map_of_map.
    apply flat_map_ext_in. intros o _.
    rewrite map_map. apply map_ext. intros r. lia.
Qed.

Lemma ranks_of_app_perm (a b b' : list (Z * Z)) :
  Permutation (ranks_of b) (ranks_of b') ->
  Permutation (ranks_of (a ++ b)) (ranks_of (a ++ b')).
Proof.
  intros H. rewrite !ranks_of_app. apply flat_map_perm_ext. intros o _.
  apply Permutation_map, H.
Qed.

Lemma ranks_of_filter_app (a b : list (Z * Z)) :
  ranks_of (filter nontrivial a ++ b) = ranks_of (a ++ b).
Proof. rewrite !ranks_of_app, ranks_of_filter. reflexivity. Qed.

(** ** Mixed radix *)

Lemma map_swap_perm {A B C : Type} (f : A -> B -> C)
      (la : list A) (lb : list B) :
  Permutation (flat_map (fun a => map (fun b => f a b) lb) la)
              (flat_map (fun b => map (fun a => f a b) la) lb).
Proof.
  rewrite (flat_map_ext_in _ (fun a => flat_map (fun b => [f a b]) lb)).
  2:{ intros a _. rewrite flat_map_concat_map.
      induction lb; simpl; [reflexivity|f_equal; assumption]. }
  rewrite flat_map_swap. apply Permutation_refl'.
  apply flat_map_ext_in. intros b _.
  induction la; simpl; [reflexivity|f_equal; assumption].
Qed.

(** The ranks of a mixed-radix system from weight [w] are the multiples
    of [w] below [w] times the product of the sizes. *)
Lemma radix_chain_ranks (ds : list (Z * Z)) (w : Z) :
  radix_chain w ds -> Forall (fun d => 0 <= fst d) ds ->
  Permutation (ranks_of ds) (map (Z.mul w) (range (prod (map fst ds)))).
Proof.
  revert w; induction ds as [|[n s] ds IH]; intros w Hc Hn.
  - cbn [ranks_of map fst]. change (range (prod [])) with [0].
    cbn [map]. rewrite Z.mul_0_r. reflexivity.
  - destruct Hc as [-> Hc]. apply Forall_cons_iff in Hn.
    destruct Hn as [Hn Hds]. cbn [fst] in Hn.
    cbn [ranks_of map fst]. rewrite prod_cons.
    set (P := prod (map fst ds)).
    assert (HP : 0 <= P).
    { apply prod_nonneg. rewrite Forall_map. exact Hds. }
    rewrite (flat_map_perm_ext _
               (fun c => map (fun x => c * w + w * n * x) (range P))).
    2:{ intros c _. rewrite (IH _ Hc Hds), map_map. reflexivity. }
    rewrite map_swap_perm.
    assert (E : flat_map (fun x => map (fun c => c * w + w * n * x) (range n))
                         (range P)
                = map (Z.mul w) (range (n * P))).
    { replace (n * P) with (P * n) by lia.
      rewrite <- range_rows, map_flat_map by assumption.
      apply flat_map_ext_in. intros x _. rewrite map_map.
      apply map_ext. intros c. lia. }
    rewrite E. reflexivity.
Qed.

(** ** The complement fills the gaps *)

Lemma fit_exact (s b : Z) : s mod b = 0 -> b * (s / b) = s.
Proof.
  intros H. destruct (Z.eq_dec b 0) as [->|Hb].
  - rewrite Z.mod_0_r in H. lia.
  - pose proof (Z.div_mod s b Hb). lia.
Qed.

Lemma div_nonneg (a b : Z) : 0 <= a -> 0 <= b -> 0 <= a / b.
Proof.
  intros Ha Hb. destruct (Z.eq_dec b 0) as [->|Hb0].
  - rewrite Z.div_0_r. lia.
  - apply Z.div_pos; lia.
Qed.

Lemma interleave_chain (ds : list (Z * Z)) (b world_size : Z) :
  strides_fit b ds = true -> radix_chain b (interleave b ds world_size).
Proof.
  revert b; induction ds as [|[n s] ds IH]; intros b H.
  - cbn. auto.
  - cbn [strides_fit] in H. apply andb_true_iff in H. destruct H as [Hs H].
    apply Z.eqb_eq in Hs. cbn [interleave radix_chain].
    rewrite (fit_exact _ _ Hs). repeat split.
    replace (s * n) with (n * s) by lia. apply IH, H.
Qed.

Lemma interleave_prod (ds : list (Z * Z)) (b world_size : Z) :
  strides_fit b ds = true ->
  world_size mod Pycute.total_span b ds = 0 ->
  b * prod (map fst (interleave b ds world_size)) = world_size.
Proof.
  revert b; induction ds as [|[n s] ds IH]; intros b H Hw.
  - cbn [interleave map fst Pycute.total_span] in *.
    rewrite prod_cons. change (prod []) with 1.
    rewrite Z.mul_1_r. apply fit_exact, Hw.
  - cbn [strides_fit] in H. apply andb_true_iff in H. destruct H as [Hs H].
    apply Z.eqb_eq in Hs.
    cbn [interleave map fst Pycute.total_span] in *.
    rewrite !prod_cons. specialize (IH _ H Hw).
    rewrite Z.mul_assoc, (fit_exact _ _ Hs), Z.mul_assoc.
    replace (s * n) with (n * s) by lia. exact IH.
Qed.

Lemma interleave_nonneg (ds : list (Z * Z)) (b world_size : Z) :
  0 <= b -> 0 <= world_size ->
  Forall (fun d => 0 <= fst d /\ 0 <= snd d) ds ->
  Forall (fun d => 0 <= fst d) (interleave b ds world_size).
Proof.
  intros Hb Hw H; revert b Hb;
    induction H as [|[n s] ds [Hn Hs] _ IH]; intros b Hb; cbn [fst snd] in *.
  - repeat constructor. cbn [fst]. apply div_nonneg; assumption.
  - cbn [interleave]. constructor; [cbn [fst]; apply div_nonneg; assumption|].
    constructor; [exact Hn|]. apply IH. nia.
Qed.

Lemma interleave_perm (ds : list (Z * Z)) (b world_size : Z) :
  Permutation
    (interleave b ds world_size)
    (Pycute.gaps b ds
       ++ (world_size / Pycute.total_span b ds, Pycute.total_span b ds) :: ds).
Proof.
  revert b; induction ds as [|[n s] ds IH]; intros b.
  - reflexivity.
  - cbn [interleave Pycute.gaps Pycute.total_span app].
    constructor. rewrite (IH (n * s)).
    rewrite Permutation_middle. apply Permutation_app_head, perm_swap.
Qed.

(** ** Sorting a permutation of 0, ..., n-1 *)

Lemma seq_ascending (start len0 : nat) :
  ascending (fun v => v) (map Z.of_nat (seq start len0)).
Proof.
  revert start; induction len0 as [|k IH]; intros start; simpl.
  - constructor.
  - constructor; [apply IH|]. apply Forall_forall. intros x Hx.
    apply in_map_iff in Hx. destruct Hx as (y & <- & Hy).
    apply in_seq in Hy. lia.
Qed.

Lemma ascending_perm_eq (l m : list Z) :
  ascending (fun v => v) l -> ascending (fun v => v) m ->
  Permutation l m -> l = m.
Proof.
  unfold ascending. intros Hl; revert m.
  induction Hl as [|x l Hl IH Hx]; intros m Hm HP.
  - apply Permutation_nil in HP. subst. reflexivity.
  - destruct Hm as [|y m Hm Hy].
    + apply Permutation_sym, Permutation_nil in HP. discriminate.
    + rewrite Forall_forall in Hx, Hy.
      assert (E : x = y).
      { assert (Hxm : In x (y :: m))
          by (apply (Permutation_in _ HP); left; reflexivity).
        assert (Hyl : In y (x :: l))
          by (apply (Permutation_in _ (Permutation_sym HP)); left; reflexivity).
        destruct Hxm as [->|Hxm]; [reflexivity|].
        destruct Hyl as [->|Hyl]; [reflexivity|].
        specialize (Hx _ Hyl). specialize (Hy _ Hxm). lia. }
      subst y. f_equal. apply IH; [exact Hm|].
      apply Permutation_cons_inv in HP. exact HP.
Qed.

Lemma sorted_of_perm_range (l : list Z) (n : Z) :
  Permutation l (range n) -> sorted (fun v => v) l = range n.
Proof.
  intros H. apply ascending_perm_eq.
  - apply sorted_ascending.
  - apply seq_ascending.
  - rewrite sorted_perm. exact H.
Qed.

(** ** Round trip *)

Lemma complement_inv (self c : _MeshLayout) (world_size : Z) :
  complement Pycute.complement self world_size = ok c ->
  check_non_overlap self = true
  /\ Pycute.total_span 1 (kept_pairs self) <> 0
  /\ world_size mod Pycute.total_span 1 (kept_pairs self) = 0
  /\ c = Pycute.of_dims
           ((world_size / Pycute.total_span 1 (kept_pairs self),
             Pycute.total_span 1 (kept_pairs self))
              :: rev (filter nontrivial
                             (Pycute.gaps 1 (kept_pairs self)))).
Proof.
  unfold complement, Pycute.complement. fold (kept_pairs self).
  destruct (check_non_overlap self); cbn [negb]; [|discriminate].
  destruct (Z.eqb_spec (Pycute.total_span 1 (kept_pairs self)) 0) as [|HT];
    cbn [orb]; [discriminate|].
  destruct (Z.eqb_spec (world_size mod Pycute.total_span 1 (kept_pairs self)) 0)
    as [Hw|]; cbn [negb]; [|discriminate].
  unfold ok at 1; cbn [bind]. rewrite new_of_dims.
  intros H; injection H as <-. auto.
Qed.

Lemma kept_pairs_nonneg (self : _MeshLayout) :
  nonneg (shape self) = true -> nonneg (stride self) = true ->
  Forall (fun d => 0 <= fst d /\ 0 <= snd d) (kept_pairs self).
Proof.
  intros Hs Ht. apply nonneg_Forall in Hs, Ht. rewrite Forall_forall in *.
  intros [n s] Hd. apply filter_In in Hd. destruct Hd as [Hd _].
  apply (Permutation_in _ (sorted_perm snd _)) in Hd.
  split; [apply Hs|apply Ht].
  - apply in_combine_l in Hd. exact Hd.
  - apply in_combine_r in Hd. exact Hd.
Qed.

Lemma total_span_nonneg (ds : list (Z * Z)) (b : Z) :
  0 <= b -> Forall (fun d => 0 <= fst d /\ 0 <= snd d) ds ->
  0 <= Pycute.total_span b ds.
Proof.
  intros Hb H; revert b Hb; induction H as [|[n s] ds [Hn Hs] _ IH];
    intros b Hb; cbn [Pycute.total_span fst snd] in *.
  - exact Hb.
  - apply IH. nia.
Qed.

Lemma map_mul_1 (l : list Z) : map (Z.mul 1) l = l.
Proof. rewrite <- (map_id l) at 2. apply map_ext. intros; lia. Qed.

(** C1, as far as it holds.  Let the layout have as many size leaves as
    stride leaves, none negative, pass [check_non_overlap], and let every
    stride, in ascending order and size-1 dimensions left out, be a
    multiple of the span (size times stride) of the dimension before it.
    Then for every world size at which [global_ranks] (over the complement
    described by the spec) returns, the sorted concatenation of the groups
    is 0, 1, ..., world_size - 1. *)
Theorem global_ranks_round_trip
        (self : _MeshLayout) (world_size : Z) (groups : list (list Z)) :
  same_length self = true ->
  nonneg (shape self) = true -> nonneg (stride self) = true ->
  check_non_overlap self = true ->
  gaps_fit self = true ->
  global_ranks Pycute.complement self world_size = ok groups ->
  sorted (fun v => v) (concat groups) = range world_size.
Proof.
  intros Hlen Hsz Hst _ Hfit Hg. unfold global_ranks in Hg.
  destruct (complement Pycute.complement self world_size) as [e|c] eqn:Hc;
    [discriminate|].
  cbn [bind] in Hg. injection Hg as <-.
  apply complement_inv in Hc. destruct Hc as (_ & HT & Hw & ->).
  pose proof (kept_pairs_nonneg self Hsz Hst) as HK.
  pose proof (total_span_nonneg _ 1 ltac:(lia) HK) as HT0.
  unfold gaps_fit in Hfit.
  set (K := kept_pairs self) in *. set (T := Pycute.total_span 1 K) in *.
  rewrite <- flat_map_concat_map.
  rewrite member_ranks_of_dims, (member_ranks_dims self Hlen).
  rewrite <- ranks_of_app.
  destruct (Z.lt_ge_cases world_size 0) as [Hneg|Hpos].
  - cbn [app ranks_of]. rewrite (range_nonpos (world_size / T)).
    + rewrite (range_nonpos world_size) by lia. reflexivity.
    + assert (world_size / T < 0); [|lia].
      apply Z.div_lt_upper_bound; lia.
  - apply sorted_of_perm_range.
    transitivity (ranks_of (interleave 1 K world_size)).
    + transitivity
        (ranks_of (((world_size / T, T)
                      :: rev (filter nontrivial (Pycute.gaps 1 K)))
                     ++ K)).
      * apply ranks_of_app_perm. unfold K, kept_pairs.
        rewrite ranks_of_filter. apply ranks_of_perm.
        symmetry. apply sorted_perm.
      * rewrite (ranks_of_perm _ _ (interleave_perm K 1 world_size)).
        fold T. rewrite <- (ranks_of_filter_app (Pycute.gaps 1 K)).
        apply ranks_of_perm. cbn [app]. rewrite <- Permutation_middle.
        constructor. apply Permutation_app_tail.
        symmetry. apply Permutation_rev.
    + rewrite (radix_chain_ranks _ 1 (interleave_chain K 1 world_size Hfit)
                 (interleave_nonneg K 1 world_size ltac:(lia) Hpos HK)).
      pose proof (interleave_prod K 1 world_size Hfit Hw) as HP.
      rewrite Z.mul_1_l in HP. rewrite HP, map_mul_1. reflexivity.
Qed.

Lemma global_ranks_round_trip_witness :
  sorted (fun v => v)
         (concat [[0; 1; 12; 13]; [2; 3; 14; 15]; [4; 5; 16; 17];
                  [6; 7; 18; 19]; [8; 9; 20; 21]; [10; 11; 22; 23]])
  = range 24.
Proof.
  apply (global_ranks_round_trip
           (Layout (Tuple [Tuple [Int 2; Int 1]; Int 2])
                   (Tuple [Tuple [Int 12; Int 5]; Int 1])) 24);
    reflexivity.
Defined.

(** The layout (2,2):(3,1) passes [check_non_overlap] and its span 6
    divides the world size 6; the complement is defined, there is one
    group, and it misses the ranks 2 and 5. *)
Lemma global_ranks_round_trip_fails :
  check_non_overlap (Layout (Tuple [Int 2; Int 2]) (Tuple [Int 3; Int 1]))
  = true
  /\ 6 mod Pycute.total_span
             1 (kept_pairs (Layout (Tuple [Int 2; Int 2])
                                   (Tuple [Int 3; Int 1]))) = 0
  /\ global_ranks Pycute.complement
                  (Layout (Tuple [Int 2; Int 2]) (Tuple [Int 3; Int 1])) 6
     = ok [[0; 1; 3; 4]]
  /\ sorted (fun v => v) (concat [[0; 1; 3; 4]]) = [0; 1; 3; 4]
  /\ sorted (fun v => v) (concat [[0; 1; 3; 4]]) <> range 6.
Proof.
  split; [reflexivity|]. split; [reflexivity|]. split; [reflexivity|].
  split; [reflexivity|]. discriminate.
Qed.

(** Whatever the offsets, the groups of that layout are not a
    rearrangement of 0, ..., 5: each group has four ranks. *)
Example no_offsets_tile_6 (offsets : list Z) :
  sorted (fun v => v)
         (concat (map (fun offset =>
                         map (Z.add offset)
                             (member_ranks (Layout (Tuple [Int 2; Int 2])
                                                   (Tuple [Int 3; Int 1]))))
                      offsets))
  <> range 6.
Proof.
  intros H. apply (f_equal (@length Z)) in H.
  rewrite (Permutation_length (sorted_perm _ _)) in H.
  change (length (range 6)) with 6%nat in H.
  assert (E : forall l : list Z,
             length (concat (map (fun offset => map (Z.add offset)
                                                    [0; 1; 3; 4]) l))
             = (4 * length l)%nat).
  { induction l as [|o l IH]; [reflexivity|].
    cbn [map concat length app] in *. rewrite IH. lia. }
  change (member_ranks _) with [0; 1; 3; 4] in H.
  rewrite E in H. lia.
Qed.

(* ================================================================= *)
(** * Further properties *)

(** ** A layout that passes [check_non_overlap] repeats no rank *)

Lemma NoDup_map_inj {A B : Type} (f : A -> B) (l : list A) :
  (forall x y, f x = f y -> x = y) -> NoDup l -> NoDup (map f l).
Proof.
  intros Hf. induction 1 as [|x l Hx _ IH]; cbn [map]; constructor.
  - intros H. apply in_map_iff in H. destruct H as (y & E & Hy).
    apply Hf in E. subst y. contradiction.
  - exact IH.
Qed.

Lemma NoDup_range (n : Z) : NoDup (range n).
Proof.
  unfold range. apply NoDup_map_inj; [|apply seq_NoDup].
  intros x y E. lia.
Qed.

Lemma NoDup_shifted (s : Z) (R cs : list Z) :
  NoDup R -> (forall r, In r R -> 0 <= r < s) -> NoDup cs ->
  NoDup (flat_map (fun c => map (Z.add (c * s)) R) cs).
Proof.
  intros HR HB Hcs. induction Hcs as [|c cs Hc Hcs IH]; cbn [flat_map].
  - constructor.
  - apply NoDup_app; [|exact IH|].
    + apply NoDup_map_inj; [|exact HR]. intros x y E. lia.
    + intros x Hx Hx'. apply in_map_iff in Hx. destruct Hx as (r & <- & Hr).
      apply in_flat_map in Hx'. destruct Hx' as (c' & Hc' & Hx').
      apply in_map_iff in Hx'. destruct Hx' as (r' & E & Hr').
      apply HB in Hr, Hr'. assert (c = c') by nia. subst c'. contradiction.
Qed.

Lemma nested_ranks (ds : list (Z * Z)) :
  nested ds ->
  NoDup (ranks_of ds)
  /\ forall r, In r (ranks_of ds) -> 0 <= r < Z.max 1 (inner_span ds).
Proof.
  induction ds as [|[n s] ds IH]; intros H.
  - split; [repeat constructor; intros []|].
    intros r [<-|[]]. cbn. lia.
  - destruct H as (Hs & Hb & Hn). destruct (IH Hn) as [ND B].
    assert (B' : forall r, In r (ranks_of ds) -> 0 <= r < s).
    { intros r Hr. apply B in Hr. lia. }
    cbn [ranks_of inner_span]. split.
    + apply NoDup_shifted; [exact ND|exact B'|apply NoDup_range].
    + intros r Hr. apply in_flat_map in Hr. destruct Hr as (c & Hc & Hr).
      apply in_map_iff in Hr. destruct Hr as (r' & <- & Hr').
      apply in_range in Hc. apply B' in Hr'. nia.
Qed.

Lemma spaced_nested (ds inner : list (Z * Z)) (bound : Z) :
  spaced bound ds -> nested inner -> inner_span inner <= bound ->
  nested (rev_append ds inner).
Proof.
  revert inner bound; induction ds as [|[n s] ds IH]; intros inner bound H Hn Hb.
  - exact Hn.
  - destruct H as (Hs & Hbs & H). cbn [rev_append].
    apply (IH _ (n * s)); [exact H| |cbn; lia].
    cbn [nested]. repeat split; [exact Hs|lia|exact Hn].
Qed.

Lemma check_walk_spaced (a p : Z) (ds : list (Z * Z)) :
  check_walk a p ds = true ->
  Forall (fun d => fst d <> 1) ds -> Forall (fun d => 1 <= snd d) ds ->
  spaced a ds.
Proof.
  revert a p; induction ds as [|[n s] ds IH]; intros a p H H1 Hs.
  - exact I.
  - apply Forall_cons_iff in H1, Hs. destruct H1 as [Hn H1], Hs as [Hs0 Hs].
    cbn [fst snd] in *. cbn [check_walk] in H.
    destruct (Z.eqb_spec n 1) as [|_]; [contradiction|].
    destruct ((p =? s) || (s <? a)) eqn:E; [discriminate|].
    apply orb_false_iff in E. destruct E as [_ E]. apply Z.ltb_ge in E.
    cbn [spaced]. repeat split; [exact Hs0|exact E|].
    apply (IH _ _ H H1 Hs).
Qed.

Lemma spaced_from_1 (a : Z) (ds : list (Z * Z)) :
  spaced a ds -> spaced 1 ds.
Proof.
  destruct ds as [|[n s] ds]; [auto|]. cbn [spaced]. intros (H1 & _ & H).
  auto.
Qed.

Lemma kept_pairs_positive (self : _MeshLayout) :
  positive_strides self = true ->
  Forall (fun d => 1 <= snd d) (kept_pairs self).
Proof.
  unfold positive_strides. rewrite forallb_forall, Forall_forall.
  intros H d Hd. apply filter_In in Hd. destruct Hd as [Hd Hn].
  apply (Permutation_in _ (sorted_perm snd _)) in Hd.
  specialize (H d Hd). unfold nontrivial in Hn.
  destruct (fst d =? 1); [discriminate|]. cbn [orb] in H. lia.
Qed.

Lemma ranks_of_kept_pairs (self : _MeshLayout) :
  Permutation (ranks_of (sizes_and_strides self))
              (ranks_of (rev (kept_pairs self))).
Proof.
  rewrite (ranks_of_perm _ _ (Permutation_sym (Permutation_rev (kept_pairs self)))).
  unfold kept_pairs. rewrite ranks_of_filter.
  apply ranks_of_perm. symmetry. apply sorted_perm.
Qed.

Lemma kept_pairs_nested (self : _MeshLayout) :
  positive_strides self = true -> check_non_overlap self = true ->
  nested (rev (kept_pairs self)).
Proof.
  intros Hp Hc. rewrite rev_alt.
  apply (spaced_nested _ [] 1); [|exact I|cbn; lia].
  unfold check_non_overlap in Hc. rewrite check_walk_filter in Hc.
  fold (kept_pairs self) in Hc.
  apply (spaced_from_1 (-1)).
  apply (check_walk_spaced _ _ _ Hc (kept_pairs_nontrivial self)
           (kept_pairs_positive self Hp)).
Qed.

(** X1.  A layout with as many size leaves as stride leaves, whose
    dimensions of size other than 1 have strides of at least 1, and which
    [check_non_overlap] accepts, has no rank twice in [member_ranks]. *)
Theorem check_non_overlap_sound (self : _MeshLayout) :
  same_length self = true -> positive_strides self = true ->
  check_non_overlap self = true ->
  NoDup (member_ranks self).
Proof.
  intros Hlen Hp Hc. rewrite (member_ranks_dims self Hlen).
  apply (Permutation_NoDup (Permutation_sym (ranks_of_kept_pairs self))).
  apply nested_ranks, kept_pairs_nested; assumption.
Qed.

Lemma check_non_overlap_sound_witness :
  NoDup (member_ranks (Layout (Tuple [Int 2; Tuple [Int 1; Int 3]])
                              (Tuple [Int 1; Tuple [Int 0; Int 4]]))).
Proof.
  apply (check_non_overlap_sound
           (Layout (Tuple [Int 2; Tuple [Int 1; Int 3]])
                   (Tuple [Int 1; Tuple [Int 0; Int 4]]))); reflexivity.
Defined.

(** ** [check_non_overlap] without the sort *)

Lemma has_clash_tail (p : Z * Z) (l : list (Z * Z)) :
  has_clash l -> has_clash (p :: l).
Proof.
  intros (l1 & a & b & l2 & E & H). exists (p :: l1), a, b, l2.
  rewrite E. auto.
Qed.

Lemma apart_sym (p q : Z * Z) : apart p q -> apart q p.
Proof. unfold apart. tauto. Qed.

Lemma ordered_pairs_perm {A : Type} (S : A -> A -> Prop) (l l' : list A) :
  (forall x y, S x y -> S y x) ->
  Permutation l l' -> ForallOrdPairs S l -> ForallOrdPairs S l'.
Proof.
  intros Hsym. induction 1 as [|x l l' HP IH|x y l|l l' l'' _ IH1 _ IH2];
    intros H.
  - exact H.
  - inversion H as [|? ? Hx Hl]; subst. constructor.
    + apply (Permutation_Forall HP), Hx.
    + apply IH, Hl.
  - inversion H as [|? ? Hy Hl]; subst.
    inversion Hl as [|? ? Hx Hl']; subst.
    inversion Hy as [|? ? Hyx Hy']; subst.
    constructor; [constructor; [apply Hsym, Hyx|exact Hx]|].
    constructor; assumption.
  - apply IH2, IH1, H.
Qed.

(** On a list in ascending stride order, no two neighbours clash exactly
    when any two dimensions lie apart. *)
Lemma no_clash_apart (l : list (Z * Z)) :
  ascending snd l -> (~ has_clash l <-> ForallOrdPairs apart l).
Proof.
  unfold ascending. induction 1 as [|p l Hl IH Hp].
  - split; [constructor|]. intros _. apply has_clash_nil.
  - rewrite Forall_forall in Hp. split.
    + intros H. constructor.
      * destruct l as [|q l]; [constructor|].
        assert (Hq : ~ clash p q).
        { intros C. apply H, has_clash_cons. left. exact C. }
        unfold clash in Hq.
        assert (Hpq : snd p <= snd q) by (apply Hp; left; reflexivity).
        apply Forall_forall. intros z Hz.
        assert (Hqz : snd q <= snd z).
        { destruct Hz as [<-|Hz]; [lia|].
          inversion Hl as [|? ? _ Hq']; subst.
          rewrite Forall_forall in Hq'. apply Hq', Hz. }
        left. lia.
      * apply IH. intros C. apply H, has_clash_tail, C.
    + intros H. inversion H as [|? ? Hpl Hl']; subst.
      destruct l as [|q l]; [apply has_clash_one|].
      rewrite has_clash_cons. intros [C|C].
      * inversion Hpl as [|? ? Hpq _]; subst.
        assert (snd p <= snd q) by (apply Hp; left; reflexivity).
        unfold clash in C. unfold apart in Hpq. lia.
      * apply IH in Hl'. contradiction.
Qed.

Lemma ascending_first_nonneg (q : Z * Z) (l : list (Z * Z)) :
  ascending snd (q :: l) -> 0 <= snd q ->
  Forall (fun d => 0 <= snd d) (q :: l).
Proof.
  intros H Hq. inversion H as [|? ? _ Hl]; subst.
  constructor; [exact Hq|]. rewrite Forall_forall in *.
  intros z Hz. specialize (Hl z Hz). lia.
Qed.

Lemma check_non_overlap_kept (self : _MeshLayout) :
  check_non_overlap self = true
  <-> Forall (fun d => 0 <= snd d) (kept_pairs self)
      /\ ForallOrdPairs apart (kept_pairs self).
Proof.
  destruct (kept_pairs_sorted self) as [Hasc _].
  rewrite <- (no_clash_apart _ Hasc).
  assert (F := check_walk_false (-1) (-1) _ (kept_pairs_nontrivial self)).
  unfold check_non_overlap. rewrite check_walk_filter. fold (kept_pairs self).
  destruct (check_walk (-1) (-1) (kept_pairs self)).
  - split; [intros _|reflexivity].
    assert (N : ~ (match kept_pairs self with
                   | [] => False
                   | q :: _ => -1 = snd q \/ snd q < -1
                   end \/ has_clash (kept_pairs self))).
    { intros C. apply F in C. discriminate. }
    split; [|tauto].
    destruct (kept_pairs self) as [|q l]; [constructor|].
    apply ascending_first_nonneg; [exact Hasc|]. lia.
  - split; [discriminate|]. intros [Hnn Hnc]. exfalso.
    destruct (proj1 F eq_refl) as [C|C]; [|contradiction].
    destruct (kept_pairs self) as [|q l]; [exact C|].
    inversion Hnn; subst. lia.
Qed.

(** X2.  [check_non_overlap] is true exactly when, among the dimensions
    of size other than 1, no stride is negative and any two dimensions lie
    apart: one has the strictly larger stride, and it is at least the span
    (size times stride) of the other.  Nothing is assumed of the layout:
    negative leaves and unequal numbers of leaves are covered. *)
Theorem check_non_overlap_pairwise (self : _MeshLayout) :
  check_non_overlap self = true
  <-> Forall (fun d => 0 <= snd d)
             (filter nontrivial (sizes_and_strides self))
      /\ ForallOrdPairs apart (filter nontrivial (sizes_and_strides self)).
Proof.
  rewrite check_non_overlap_kept.
  destruct (kept_pairs_sorted self) as [_ HP]. split; intros [H1 H2]; split.
  - apply (Permutation_Forall HP), H1.
  - apply (ordered_pairs_perm _ _ _ apart_sym HP), H2.
  - apply (Permutation_Forall (Permutation_sym HP)), H1.
  - apply (ordered_pairs_perm _ _ _ apart_sym (Permutation_sym HP)), H2.
Qed.

(** X3.  The result of [check_non_overlap] does not depend on the order
    of the dimensions, nor on the dimensions of size 1: two layouts whose
    dimensions of size other than 1 are a rearrangement of each other get
    the same answer. *)
Theorem check_non_overlap_order_free (a b : _MeshLayout) :
  Permutation (filter nontrivial (sizes_and_strides a))
              (filter nontrivial (sizes_and_strides b)) ->
  check_non_overlap a = check_non_overlap b.
Proof.
  intros HP.
  destruct (kept_pairs_sorted a) as [_ Ha], (kept_pairs_sorted b) as [_ Hb].
  assert (HK : Permutation (kept_pairs a) (kept_pairs b)).
  { rewrite Ha, HP. symmetry. exact Hb. }
  assert (E : check_non_overlap a = true <-> check_non_overlap b = true).
  { rewrite !check_non_overlap_kept. split; intros [H1 H2]; split.
    - apply (Permutation_Forall HK), H1.
    - apply (ordered_pairs_perm _ _ _ apart_sym HK), H2.
    - apply (Permutation_Forall (Permutation_sym HK)), H1.
    - apply (ordered_pairs_perm _ _ _ apart_sym (Permutation_sym HK)), H2. }
  destruct (check_non_overlap a), (check_non_overlap b); try reflexivity.
  - symmetry. apply E. reflexivity.
  - apply E. reflexivity.
Qed.

Lemma check_non_overlap_order_free_witness :
  check_non_overlap (Layout (Tuple [Int 2; Int 1; Int 3])
                            (Tuple [Int 3; Int 7; Int 1]))
  = check_non_overlap (Layout (Tuple [Int 3; Int 2]) (Tuple [Int 1; Int 3])).
Proof.
  apply (check_non_overlap_order_free
           (Layout (Tuple [Int 2; Int 1; Int 3]) (Tuple [Int 3; Int 7; Int 1]))
           (Layout (Tuple [Int 3; Int 2]) (Tuple [Int 1; Int 3]))).
  apply perm_swap.
Defined.

(** ** The ranks of a layout: range, ends, emptiness *)

Lemma strides_nonneg (self : _MeshLayout) :
  nonneg (stride self) = true ->
  Forall (fun d => 0 <= snd d) (sizes_and_strides self).
Proof.
  intros H. apply nonneg_Forall in H. rewrite Forall_forall in *.
  intros [n s] Hd. apply in_combine_r in Hd. apply H, Hd.
Qed.

Lemma sizes_positive (self : _MeshLayout) :
  positive (shape self) = true ->
  Forall (fun d => 1 <= fst d) (sizes_and_strides self).
Proof.
  intros H. apply positive_Forall in H. rewrite Forall_forall in *.
  intros [n s] Hd. apply in_combine_l in Hd. apply H, Hd.
Qed.

Lemma ranks_of_bounds (ds : list (Z * Z)) :
  Forall (fun d => 0 <= snd d) ds ->
  forall r, In r (ranks_of ds) -> 0 <= r <= max_rank ds.
Proof.
  induction 1 as [|[n s] ds Hs _ IH]; intros r Hr; cbn [snd] in *.
  - destruct Hr as [<-|[]]. cbn. lia.
  - cbn [ranks_of max_rank] in *. apply in_flat_map in Hr.
    destruct Hr as (c & Hc & Hr). apply in_map_iff in Hr.
    destruct Hr as (r' & <- & Hr'). apply in_range in Hc.
    apply IH in Hr'. nia.
Qed.

Lemma range_first (n : Z) : 1 <= n -> range n = 0 :: map (Z.add 1) (range (n - 1)).
Proof.
  intros H. replace n with (1 + (n - 1)) at 1 by lia.
  rewrite range_add by lia. reflexivity.
Qed.

Lemma ranks_of_first (ds : list (Z * Z)) :
  Forall (fun d => 1 <= fst d) ds -> exists tl, ranks_of ds = 0 :: tl.
Proof.
  induction 1 as [|[n s] ds Hn _ [tl IH]]; cbn [fst] in *.
  - exists []. reflexivity.
  - cbn [ranks_of]. rewrite (range_first n Hn). cbn [flat_map].
    rewrite IH. cbn [map app]. eexists. reflexivity.
Qed.

Lemma last_app_cons {A : Type} (l m : list A) (x d : A) :
  last (l ++ x :: m) d = last (x :: m) d.
Proof.
  induction l as [|y l IH]; [reflexivity|].
  cbn [app]. rewrite <- IH. destruct (l ++ x :: m) eqn:E.
  - destruct l; discriminate.
  - reflexivity.
Qed.

Lemma last_map_cons {A B : Type} (f : A -> B) (x : A) (l : list A) (d : A)
      (e : B) :
  last (map f (x :: l)) e = f (last (x :: l) d).
Proof.
  revert x; induction l as [|y l IH]; intros x; [reflexivity|].
  cbn [map] in *. change (last (f x :: f y :: map f l) e)
    with (last (f y :: map f l) e).
  rewrite IH. reflexivity.
Qed.

Lemma ranks_of_last (ds : list (Z * Z)) :
  Forall (fun d => 1 <= fst d) ds -> last (ranks_of ds) 0 = max_rank ds.
Proof.
  induction 1 as [|[n s] ds Hn Hds IH]; cbn [fst] in *.
  - reflexivity.
  - cbn [ranks_of max_rank].
    replace n with ((n - 1) + 1) at 1 by lia.
    rewrite range_succ, flat_map_app by lia. cbn [flat_map].
    rewrite app_nil_r.
    destruct (ranks_of_first ds Hds) as [tl E]. rewrite E in *.
    cbn [map]. rewrite last_app_cons.
    change (last ((n - 1) * s + 0 :: map (Z.add ((n - 1) * s)) tl) 0)
      with (last (map (Z.add ((n - 1) * s)) (0 :: tl)) 0).
    rewrite (last_map_cons _ _ _ 0), IH. reflexivity.
Qed.

(** X4.  With as many size leaves as stride leaves and no negative
    stride, every rank of [member_ranks] lies between 0 and the rank of
    the last coordinate, the sum of (size - 1) * stride. *)
Theorem member_ranks_bounds (self : _MeshLayout) (r : Z) :
  same_length self = true -> nonneg (stride self) = true ->
  In r (member_ranks self) ->
  0 <= r <= max_rank (sizes_and_strides self).
Proof.
  intros Hlen Hs Hr. rewrite (member_ranks_dims self Hlen) in Hr.
  apply (ranks_of_bounds _ (strides_nonneg self Hs) r Hr).
Qed.

Lemma member_ranks_bounds_witness :
  0 <= 7 <= max_rank (sizes_and_strides
                        (Layout (Tuple [Int 2; Int 3]) (Tuple [Int 6; Int 1]))).
Proof.
  apply (member_ranks_bounds
           (Layout (Tuple [Int 2; Int 3]) (Tuple [Int 6; Int 1])) 7);
    [reflexivity|reflexivity|].
  cbn. do 4 right. left. reflexivity.
Defined.

(** X5.  With as many size leaves as stride leaves and every size at
    least 1, [member_ranks] starts with the rank 0 of the origin and ends
    with the rank of the last coordinate. *)
Theorem member_ranks_ends (self : _MeshLayout) :
  same_length self = true -> positive (shape self) = true ->
  hd_error (member_ranks self) = Some 0
  /\ last (member_ranks self) 0 = max_rank (sizes_and_strides self).
Proof.
  intros Hlen Hp. rewrite (member_ranks_dims self Hlen).
  pose proof (sizes_positive self Hp) as H. split.
  - destruct (ranks_of_first _ H) as [tl E]. rewrite E. reflexivity.
  - apply ranks_of_last, H.
Qed.

Lemma member_ranks_ends_witness :
  hd_error (member_ranks (Layout (Tuple [Int 2; Int 3]) (Tuple [Int 1; Int 2])))
  = Some 0
  /\ last (member_ranks (Layout (Tuple [Int 2; Int 3]) (Tuple [Int 1; Int 2]))) 0
     = max_rank (sizes_and_strides
                   (Layout (Tuple [Int 2; Int 3]) (Tuple [Int 1; Int 2]))).
Proof.
  apply (member_ranks_ends
           (Layout (Tuple [Int 2; Int 3]) (Tuple [Int 1; Int 2])));
    reflexivity.
Defined.

Lemma product_nil (pools : list (list Z)) :
  product pools = [] <-> Exists (fun pool => pool = []) pools.
Proof.
  induction pools as [|pool pools IH]; cbn [product].
  - split; [discriminate|]. intros H. inversion H.
  - rewrite Exists_cons, <- IH. split.
    + intros H. destruct pool as [|x pool]; [left; reflexivity|right].
      cbn [flat_map] in H. apply app_eq_nil in H. destruct H as [H _].
      destruct (product pools); [reflexivity|discriminate].
    + intros [->| ->]; [reflexivity|].
      induction pool as [|x pool IHp]; [reflexivity|exact IHp].
Qed.

(** X6.  [member_ranks] is empty exactly when some size leaf is zero or
    negative; no stride matters, nor how many there are. *)
Theorem member_ranks_empty_iff (self : _MeshLayout) :
  member_ranks self = [] <-> Exists (fun n => n <= 0) (flatten (sizes self)).
Proof.
  unfold member_ranks. split.
  - intros H. apply map_eq_nil in H. apply product_nil in H.
    apply Exists_exists in H. destruct H as (pool & Hp & ->).
    apply in_map_iff in Hp. destruct Hp as (n & E & Hn).
    apply Exists_exists. exists n. split; [exact Hn|].
    destruct (Z.le_gt_cases n 0) as [|Hpos]; [assumption|].
    rewrite (range_first n) in E by lia. discriminate.
  - intros H. apply Exists_exists in H. destruct H as (n & Hn & Hle).
    assert (E : product (map range (flatten (sizes self))) = []).
    { apply product_nil, Exists_exists. exists (range n). split.
      - apply in_map, Hn.
      - apply range_nonpos, Hle. }
    rewrite E. reflexivity.
Qed.

(** ** Order of the dimensions, dimensions of size 1, missing strides *)

(** X7.  For layouts with as many size leaves as stride leaves: if the
    dimensions of size other than 1 of one layout are a rearrangement of
    those of another, the ranks of one are a rearrangement of the ranks of
    the other. *)
Theorem member_ranks_rearranged (a b : _MeshLayout) :
  same_length a = true -> same_length b = true ->
  Permutation (filter nontrivial (sizes_and_strides a))
              (filter nontrivial (sizes_and_strides b)) ->
  Permutation (member_ranks a) (member_ranks b).
Proof.
  intros Ha Hb HP.
  rewrite (member_ranks_dims a Ha), (member_ranks_dims b Hb).
  rewrite <- (ranks_of_filter (sizes_and_strides a)).
  rewrite <- (ranks_of_filter (sizes_and_strides b)).
  apply ranks_of_perm, HP.
Qed.

Lemma member_ranks_rearranged_witness :
  Permutation
    (member_ranks (Layout (Tuple [Int 2; Int 1; Int 3])
                          (Tuple [Int 3; Int 7; Int 1])))
    (member_ranks (Layout (Tuple [Int 3; Int 2]) (Tuple [Int 1; Int 3]))).
Proof.
  apply (member_ranks_rearranged
           (Layout (Tuple [Int 2; Int 1; Int 3]) (Tuple [Int 3; Int 7; Int 1]))
           (Layout (Tuple [Int 3; Int 2]) (Tuple [Int 1; Int 3])));
    [reflexivity|reflexivity|].
  apply perm_swap.
Defined.

(** X8.  Dimensions of size 1 are invisible: two layouts (each with as
    many size leaves as stride leaves) that agree once their size-1
    dimensions are left out have the same [member_ranks], in the same
    order, whatever the strides of the size-1 dimensions. *)
Theorem member_ranks_skips_size_1 (a b : _MeshLayout) :
  same_length a = true -> same_length b = true ->
  filter nontrivial (sizes_and_strides a)
  = filter nontrivial (sizes_and_strides b) ->
  member_ranks a = member_ranks b.
Proof.
  intros Ha Hb E.
  rewrite (member_ranks_dims a Ha), (member_ranks_dims b Hb).
  rewrite <- (ranks_of_filter (sizes_and_strides a)), E.
  apply ranks_of_filter.
Qed.

Lemma member_ranks_skips_size_1_witness :
  member_ranks (Layout (Tuple [Int 1; Tuple [Int 2; Int 1]; Int 3])
                       (Tuple [Int 9; Tuple [Int 3; Int 0]; Int 1]))
  = member_ranks (Layout (Tuple [Int 2; Int 3]) (Tuple [Int 3; Int 1])).
Proof.
  apply (member_ranks_skips_size_1
           (Layout (Tuple [Int 1; Tuple [Int 2; Int 1]; Int 3])
                   (Tuple [Int 9; Tuple [Int 3; Int 0]; Int 1]))
           (Layout (Tuple [Int 2; Int 3]) (Tuple [Int 3; Int 1])));
    reflexivity.
Defined.

Lemma dot_nil_r (coord : list Z) : dot coord [] = 0.
Proof. unfold dot, zip. destruct coord; reflexivity. Qed.

Lemma dot_cons_any (x : Z) (coord ss : list Z) :
  dot (x :: coord) ss = x * hd 0 ss + dot coord (tl ss).
Proof.
  destruct ss as [|s ss]; cbn [hd tl].
  - rewrite !dot_nil_r. lia.
  - apply dot_cons.
Qed.

Lemma pad_strides_cons (n : Z) (ns ss : list Z) :
  pad_strides (n :: ns) ss = hd 0 ss :: pad_strides ns (tl ss).
Proof. destruct ss; reflexivity. Qed.

(** X9.  [member_ranks] on any layout, also one with fewer or more
    stride leaves than size leaves (which the constructor lets through
    when shape or stride is a bare int): the ranks are those of the sizes
    paired with the strides in order, a size left without a stride
    counting with stride 0 and a stride left without a size being
    ignored. *)
Theorem member_ranks_unpaired (self : _MeshLayout) :
  member_ranks self
  = ranks_of (zip (flatten (sizes self))
                  (pad_strides (flatten (sizes self))
                               (flatten (strides self)))).
Proof.
  unfold member_ranks. fold dot.
  change (fun coord => sum (map (fun cs => fst cs * snd cs)
                                (zip coord (flatten (strides self)))))
    with (fun coord => dot coord (flatten (strides self))).
  generalize (flatten (strides self)) as ss.
  induction (flatten (sizes self)) as [|n ns IH]; intros ss.
  - reflexivity.
  - rewrite pad_strides_cons. cbn [map product zip combine ranks_of].
    rewrite map_flat_map. apply flat_map_ext_in. intros x _.
    rewrite map_map.
    rewrite (map_ext _ (fun coord => x * hd 0 ss + dot coord (tl ss)))
      by (intros; apply dot_cons_any).
    rewrite <- (map_map (fun coord => dot coord (tl ss))
                        (Z.add (x * hd 0 ss))).
    f_equal. apply IH.
Qed.

(** A tuple shape with a bare-int stride is accepted by the constructor;
    only the first coordinate then counts. *)
Example member_ranks_int_stride :
  new (Tuple [Int 2; Int 3]) (Int 5)
  = ok (Layout (Tuple [Int 2; Int 3]) (Int 5))
  /\ member_ranks (Layout (Tuple [Int 2; Int 3]) (Int 5))
     = [0; 0; 0; 5; 5; 5].
Proof. split; reflexivity. Qed.

(** ** The groups of [global_ranks] as one layout *)

Lemma zip_app {A B : Type} (l l' : list A) (m m' : list B) :
  length l = length m -> zip (l ++ l') (m ++ m') = zip l m ++ zip l' m'.
Proof.
  revert m; induction l as [|x l IH]; intros [|y m] E; try discriminate.
  - reflexivity.
  - cbn. f_equal. apply IH. injection E as E. exact E.
Qed.

Lemma sizes_and_strides_stacked (c self : _MeshLayout) :
  same_length c = true ->
  sizes_and_strides (stacked c self)
  = sizes_and_strides c ++ sizes_and_strides self.
Proof.
  intros Hc. unfold sizes_and_strides, stacked. cbn [shape stride flatten flat_map].
  rewrite !app_nil_r. apply zip_app, same_length_eq, Hc.
Qed.

Lemma same_length_stacked (c self : _MeshLayout) :
  same_length c = true -> same_length self = true ->
  same_length (stacked c self) = true.
Proof.
  intros Hc Hs. apply same_length_eq in Hc, Hs.
  unfold same_length, stacked, len. cbn [shape stride flatten flat_map].
  rewrite !app_nil_r, !length_app. apply Z.eqb_eq. lia.
Qed.

Lemma concat_shifted_groups (c self : _MeshLayout) :
  same_length c = true -> same_length self = true ->
  concat (shifted_groups self c) = member_ranks (stacked c self).
Proof.
  intros Hc Hs. unfold shifted_groups. rewrite <- flat_map_concat_map.
  rewrite (member_ranks_dims _ (same_length_stacked c self Hc Hs)).
  rewrite (sizes_and_strides_stacked c self Hc), ranks_of_app.
  rewrite (member_ranks_dims c Hc), (member_ranks_dims self Hs). reflexivity.
Qed.

Section Groups.

Variable pycute_complement : _MeshLayout -> Z -> result _MeshLayout.

Lemma global_ranks_of_complement (self c : _MeshLayout) (world_size : Z) :
  complement pycute_complement self world_size = ok c ->
  global_ranks pycute_complement self world_size = ok (shifted_groups self c).
Proof. intros Hc. unfold global_ranks. rewrite Hc. reflexivity. Qed.

(** X10.  Whatever pycute's complement is: when [complement] returns
    [c], the groups of [global_ranks], read one after the other, are the
    [member_ranks] of the layout that has the dimensions of [c] in front
    of those of [self] (both with as many size leaves as stride
    leaves). *)
Theorem global_ranks_is_stacked_layout
        (self c : _MeshLayout) (world_size : Z) (groups : list (list Z)) :
  complement pycute_complement self world_size = ok c ->
  same_length c = true -> same_length self = true ->
  global_ranks pycute_complement self world_size = ok groups ->
  concat groups = member_ranks (stacked c self).
Proof.
  intros Hc Lc Ls Hg.
  rewrite (global_ranks_of_complement self c world_size Hc) in Hg.
  injection Hg as <-. apply concat_shifted_groups; assumption.
Qed.


End Groups.

Lemma global_ranks_is_stacked_layout_witness :
  concat [[0; 2]; [1; 3]]
  = member_ranks (stacked (Layout (Tuple [Int 1; Int 2]) (Tuple [Int 4; Int 1]))
                          (Layout (Tuple [Int 2]) (Tuple [Int 2]))).
Proof.
  apply (global_ranks_is_stacked_layout Pycute.complement
           (Layout (Tuple [Int 2]) (Tuple [Int 2]))
           (Layout (Tuple [Int 1; Int 2]) (Tuple [Int 4; Int 1])) 4);
    reflexivity.
Defined.


(** ** The constructor's check *)

Lemma post_init_lengths (r : _MeshLayout) :
  __post_init__ r = ok tt ->
  is_tuple (shape r) = true -> is_tuple (stride r) = true ->
  len (flatten (shape r)) = len (flatten (stride r)).
Proof.
  unfold __post_init__. intros H Hs Ht. rewrite Hs, Ht in H. cbn in H.
  destruct (Z.eqb_spec (len (flatten (shape r))) (len (flatten (stride r))));
    [assumption|discriminate].
Qed.

(** A pycute result whose tuples have different numbers of leaves is
    turned into a [ValueError] by the method. *)
Example complement_rejects_bad_result :
  complement (fun _ _ => ok (Layout (Tuple [Int 2; Int 2]) (Tuple [Int 1])))
             (Layout (Tuple [Int 4]) (Tuple [Int 1])) 8
  = raise ValueError.
Proof. reflexivity. Qed.

(** ** [scale_stride] *)

Lemma IntTuple_induction (P : IntTuple -> Prop) :
  (forall n, P (Int n)) ->
  (forall ts, Forall P ts -> P (Tuple ts)) ->
  forall t, P t.
Proof.
  intros HInt HTuple. fix IH 1. intros [n|ts].
  - apply HInt.
  - apply HTuple. induction ts as [|t ts IHts]; constructor.
    + apply IH.
    + exact IHts.
Qed.

Lemma scale_stride_eq (scale : Z) (t : IntTuple) :
  scale_stride scale t
  = if (scale =? 0) && existsb (fun s => 0 <=? s) (flatten t)
    then raise ZeroDivisionError
    else ok (map_leaves (scale_leaf scale) t).
Proof.
  induction t as [s|ts IH] using IntTuple_induction.
  - cbn [scale_stride flatten existsb map_leaves]. unfold scale_leaf, floordiv.
    rewrite orb_false_r.
    destruct (Z.ltb_spec s scale) as [Hlt|Hge];
      destruct (Z.eqb_spec scale 0) as [->|Hne];
      destruct (Z.leb_spec 0 s); cbn [andb bind]; try reflexivity; lia.
  - cbn [scale_stride flatten map_leaves].
    match goal with
    | |- bind ?e _ = _ =>
        assert (E : e = if (scale =? 0)
                           && existsb (fun s => 0 <=? s) (flat_map flatten ts)
                        then raise ZeroDivisionError
                        else ok (map (map_leaves (scale_leaf scale)) ts))
    end.
    { induction IH as [|t ts Ht _ IHts].
      - cbn. rewrite andb_false_r. reflexivity.
      - rewrite Ht, IHts. cbn [flat_map map]. rewrite existsb_app.
        destruct (scale =? 0); cbn [andb]; [|reflexivity].
        destruct (existsb (fun s => 0 <=? s) (flatten t)); cbn [orb bind];
          [reflexivity|].
        destruct (existsb (fun s => 0 <=? s) (flat_map flatten ts));
          reflexivity. }
    rewrite E.
    destruct ((scale =? 0) && existsb (fun s => 0 <=? s) (flat_map flatten ts));
      reflexivity.
Qed.

Lemma same_tree_map_leaves (f : Z -> Z) (t : IntTuple) :
  same_tree t (map_leaves f t) = true.
Proof.
  induction t as [s|ts IH] using IntTuple_induction; [reflexivity|].
  cbn [map_leaves same_tree].
  induction IH as [|t ts Ht _ IHts]; [reflexivity|].
  cbn [map]. rewrite Ht, IHts. reflexivity.
Qed.

Lemma flatten_map_leaves (f : Z -> Z) (t : IntTuple) :
  flatten (map_leaves f t) = map f (flatten t).
Proof.
  induction t as [s|ts IH] using IntTuple_induction; [reflexivity|].
  cbn [map_leaves flatten].
  induction IH as [|t ts Ht _ IHts]; [reflexivity|].
  cbn [map flat_map]. rewrite map_app, Ht, IHts. reflexivity.
Qed.

Lemma map_leaves_id (f : Z -> Z) (t : IntTuple) :
  Forall (fun s => f s = s) (flatten t) -> map_leaves f t = t.
Proof.
  induction t as [s|ts IH] using IntTuple_induction; intros H.
  - cbn in *. inversion H; subst. congruence.
  - cbn [map_leaves flatten] in *. f_equal.
    induction IH as [|t ts Ht _ IHts]; [reflexivity|].
    cbn [flat_map map] in *. apply Forall_app in H. destruct H as [H1 H2].
    rewrite (Ht H1), (IHts H2). reflexivity.
Qed.

Lemma is_tuple_map_leaves (f : Z -> Z) (t : IntTuple) :
  is_tuple (map_leaves f t) = is_tuple t.
Proof. destruct t; reflexivity. Qed.

(** X13.  With a scale other than 0, [scale_stride] raises nothing and
    returns a tree of the same tree shape, in which a leaf below the scale
    is unchanged and any other leaf is floor-divided by the scale. *)
Theorem scale_stride_keeps_shape (scale : Z) (t : IntTuple) :
  scale <> 0 ->
  exists t', scale_stride scale t = ok t'
             /\ same_tree t t' = true
             /\ flatten t' = map (scale_leaf scale) (flatten t).
Proof.
  intros H. exists (map_leaves (scale_leaf scale) t).
  rewrite scale_stride_eq. apply Z.eqb_neq in H. rewrite H.
  split; [reflexivity|]. split.
  - apply same_tree_map_leaves.
  - apply flatten_map_leaves.
Qed.

Lemma scale_stride_keeps_shape_witness :
  exists t', scale_stride 2 (Tuple [Int 4; Tuple [Int 1; Int 6]]) = ok t'
             /\ same_tree (Tuple [Int 4; Tuple [Int 1; Int 6]]) t' = true
             /\ flatten t'
                = map (scale_leaf 2) (flatten (Tuple [Int 4; Tuple [Int 1; Int 6]])).
Proof.
  apply (scale_stride_keeps_shape 2 (Tuple [Int 4; Tuple [Int 1; Int 6]])).
  lia.
Defined.

Lemma scale_stride_by_zero_eq (t : IntTuple) :
  scale_stride 0 t
  = if existsb (fun s => 0 <=? s) (flatten t)
    then raise ZeroDivisionError
    else ok t.
Proof.
  rewrite scale_stride_eq. cbn [Z.eqb andb].
  destruct (existsb (fun s => 0 <=? s) (flatten t)) eqn:E; [reflexivity|].
  rewrite map_leaves_id; [reflexivity|].
  apply Forall_forall. intros s Hs. unfold scale_leaf.
  destruct (Z.ltb_spec s 0) as [|Hge]; [reflexivity|].
  assert (existsb (fun s => 0 <=? s) (flatten t) = true); [|congruence].
  apply existsb_exists. exists s. split; [exact Hs|lia].
Qed.

(** X14.  With scale 0, [scale_stride] raises [ZeroDivisionError] exactly
    when some leaf is zero or positive, and returns the tree unchanged
    when every leaf is negative. *)
Theorem scale_stride_by_zero (t : IntTuple) :
  (scale_stride 0 t = raise ZeroDivisionError
   <-> Exists (fun s => 0 <= s) (flatten t))
  /\ (scale_stride 0 t = ok t <-> Forall (fun s => s < 0) (flatten t)).
Proof.
  rewrite scale_stride_by_zero_eq.
  destruct (existsb (fun s => 0 <=? s) (flatten t)) eqn:E.
  - apply existsb_exists in E. destruct E as (s & Hs & Hle).
    assert (Ex : Exists (fun s => 0 <= s) (flatten t)).
    { apply Exists_exists. exists s. split; [exact Hs|lia]. }
    split; split; try reflexivity; try discriminate; try (intros _; exact Ex).
    intros F. exfalso. rewrite Forall_forall in F. specialize (F s Hs). lia.
  - assert (F : Forall (fun s => s < 0) (flatten t)).
    { apply Forall_forall. intros s Hs.
      destruct (Z.lt_ge_cases s 0) as [|Hge]; [assumption|].
      assert (existsb (fun s => 0 <=? s) (flatten t) = true); [|congruence].
      apply existsb_exists. exists s. split; [exact Hs|lia]. }
    split; split; try reflexivity; try discriminate; try (intros _; exact F).
    intros Ex. exfalso. apply Exists_exists in Ex.
    destruct Ex as (s & Hs & Hle). rewrite Forall_forall in F.
    specialize (F s Hs). lia.
Qed.

(** Scaling by 1 changes nothing. *)
Lemma scale_stride_one (t : IntTuple) : scale_stride 1 t = ok t.
Proof.
  rewrite scale_stride_eq. cbn [Z.eqb andb].
  rewrite map_leaves_id; [reflexivity|].
  apply Forall_forall. intros s _. unfold scale_leaf.
  destruct (s <? 1); [reflexivity|apply Z.div_1_r].
Qed.

(** X18.  The rescaled layout is always accepted: when a layout passes
    the constructor's check and [scale_stride] returns strides for it, the
    layout built from its sizes and those strides passes the check too. *)
Theorem scaled_layout_is_accepted (self : _MeshLayout) (scale : Z)
        (scaled_strides : IntTuple) :
  __post_init__ self = ok tt ->
  scale_stride scale (strides self) = ok scaled_strides ->
  new (sizes self) scaled_strides = ok (Layout (sizes self) scaled_strides).
Proof.
  intros Hp Hs. rewrite scale_stride_eq in Hs.
  destruct ((scale =? 0) && _); [discriminate|]. injection Hs as <-.
  rewrite new_unfold, is_tuple_map_leaves, flatten_map_leaves.
  unfold len. rewrite length_map. unfold sizes, strides.
  destruct (is_tuple (shape self)) eqn:E1, (is_tuple (stride self)) eqn:E2;
    cbn [andb]; try reflexivity.
  pose proof (post_init_lengths self Hp E1 E2) as E. unfold len in E.
  rewrite E, Z.eqb_refl. reflexivity.
Qed.

Lemma scaled_layout_is_accepted_witness :
  new (sizes (Layout (Tuple [Int 2; Int 2]) (Tuple [Int 4; Int 1])))
      (Tuple [Int 2; Int 1])
  = ok (Layout (sizes (Layout (Tuple [Int 2; Int 2]) (Tuple [Int 4; Int 1])))
               (Tuple [Int 2; Int 1])).
Proof.
  apply (scaled_layout_is_accepted
           (Layout (Tuple [Int 2; Int 2]) (Tuple [Int 4; Int 1])) 2);
    reflexivity.
Defined.

(** ** [to_remapping_tensor]: world sizes near the mesh size, the result *)

Lemma new_of_checked (self : _MeshLayout) :
  __post_init__ self = ok tt -> new (sizes self) (strides self) = ok self.
Proof.
  intros H. unfold new, sizes, strides. destruct self as [sh st].
  cbn [shape stride]. rewrite H. reflexivity.
Qed.

Lemma view_groups_inv (t0 t : Tensor) (sizes0 : list Z) :
  view_groups t0 sizes0 = ok t ->
  dims t = (len (values t) / prod sizes0) :: sizes0
  /\ values t = values t0.
Proof.
  unfold view_groups.
  destruct (existsb _ sizes0); [discriminate|].
  destruct (prod sizes0 =? 0); [discriminate|].
  destruct (tensor_numel t0 mod prod sizes0 =? 0); [|discriminate].
  intros H. injection H as <-. split; reflexivity.
Qed.

Lemma gather_one_in (flat : list Z) (i v : Z) :
  gather_one flat i = ok v -> In v flat.
Proof.
  unfold gather_one.
  destruct (Z.leb_spec (- len flat) i) as [H1|]; [|discriminate].
  destruct (Z.ltb_spec i (len flat)) as [H2|]; [|discriminate].
  cbn [andb]. intros H. injection H as <-. apply nth_In.
  unfold len in *. destruct (Z.ltb_spec i 0); lia.
Qed.

Lemma gather_all_inv (flat idx vs : list Z) :
  gather_all flat idx = ok vs ->
  length vs = length idx /\ Forall (fun v => In v flat) vs.
Proof.
  revert vs; induction idx as [|i idx IH]; intros vs H; cbn [gather_all] in H.
  - injection H as <-. split; [reflexivity|constructor].
  - destruct (gather_one flat i) as [e|v] eqn:E; [discriminate|].
    destruct (gather_all flat idx) as [e|vs'] eqn:E'; [discriminate|].
    cbn [bind] in H. injection H as <-.
    destruct (IH vs' eq_refl) as [L F]. split.
    + cbn [length]. rewrite L. reflexivity.
    + constructor; [apply (gather_one_in _ _ _ E)|exact F].
Qed.

Lemma gather_inv (mesh index r : Tensor) :
  gather mesh index = ok r ->
  dims r = dims index
  /\ length (values r) = length (values index)
  /\ Forall (fun v => In v (values mesh)) (values r).
Proof.
  unfold gather.
  destruct (gather_all (values mesh) (values index)) as [e|vs] eqn:E;
    [discriminate|].
  cbn [bind]. intros H. injection H as <-. cbn [dims values].
  destruct (gather_all_inv _ _ _ E) as [L F]. auto.
Qed.

Section Remapped.

Variable pycute_complement : _MeshLayout -> Z -> result _MeshLayout.

(** X15.  For a layout that passes the constructor's check, a world size
    whose floor quotient by the element count n of the mesh is 1 (n itself
    and every size up to 2n - 1) gives what the world size n gives: the
    strides are divided by 1. *)
Theorem to_remapping_tensor_quotient_1
        (self : _MeshLayout) (mesh : Tensor) (w : Z) :
  __post_init__ self = ok tt ->
  w / tensor_numel mesh = 1 ->
  to_remapping_tensor pycute_complement self mesh w
  = to_remapping_tensor pycute_complement self mesh (tensor_numel mesh).
Proof.
  intros Hp Hq. unfold to_remapping_tensor.
  destruct (global_ranks pycute_complement self (tensor_numel mesh))
    as [e|groups] eqn:Hg; [reflexivity|]. cbn [bind].
  destruct (torch_tensor groups) as [e|t0] eqn:Ht; [reflexivity|]. cbn [bind].
  destruct (view_groups t0 (flatten (sizes self))) as [e|t] eqn:Hv;
    [reflexivity|]. cbn [bind].
  destruct (is_arange mesh); [reflexivity|].
  rewrite Z.eqb_refl. cbn [negb].
  destruct (Z.eqb_spec (tensor_numel mesh) w) as [|Hne]; [reflexivity|].
  cbn [negb]. unfold floordiv.
  destruct (Z.eqb_spec (tensor_numel mesh) 0) as [E0|_].
  { rewrite E0, Z.div_0_r in Hq. discriminate. }
  rewrite Hq. cbn [bind ok]. rewrite scale_stride_one. cbn [bind ok].
  rewrite (new_of_checked self Hp). cbn [bind ok].
  rewrite Hg. cbn [bind]. rewrite Ht. cbn [bind]. rewrite Hv. reflexivity.
Qed.

(** X16.  When the call succeeds for the world size n of the mesh itself
    on a mesh that does not hold exactly 0, ..., n-1, then for every world
    size from 0 up to n - 1 it raises [ZeroDivisionError], provided the
    layout has a stride leaf that is not negative: the scale factor is
    0. *)
Theorem to_remapping_tensor_small_world
        (self : _MeshLayout) (mesh r : Tensor) (w : Z) :
  to_remapping_tensor pycute_complement self mesh (tensor_numel mesh) = ok r ->
  is_arange mesh = false ->
  0 <= w < tensor_numel mesh ->
  existsb (fun s => 0 <=? s) (flatten (strides self)) = true ->
  to_remapping_tensor pycute_complement self mesh w = raise ZeroDivisionError.
Proof.
  intros Hr Ha Hw Hs. unfold to_remapping_tensor in *.
  destruct (global_ranks pycute_complement self (tensor_numel mesh))
    as [e|groups]; [discriminate|]. cbn [bind] in *.
  destruct (torch_tensor groups) as [e|t0]; [discriminate|]. cbn [bind] in *.
  destruct (view_groups t0 (flatten (sizes self))) as [e|t]; [discriminate|].
  cbn [bind] in *. rewrite Ha in *.
  destruct (Z.eqb_spec (tensor_numel mesh) w) as [|_]; [lia|].
  cbn [negb]. unfold floordiv.
  destruct (Z.eqb_spec (tensor_numel mesh) 0) as [|_]; [lia|].
  rewrite Z.div_small by lia. cbn [bind ok].
  rewrite scale_stride_by_zero_eq, Hs. reflexivity.
Qed.

(** X17.  Whenever [to_remapping_tensor] returns, the result has the
    flattened sizes of the layout as its trailing dimensions and the
    inferred group count in front; and on a mesh that does not hold
    exactly 0, ..., n-1 every entry of the result is an entry of the
    mesh. *)
Theorem to_remapping_tensor_result
        (self : _MeshLayout) (mesh r : Tensor) (w : Z) :
  to_remapping_tensor pycute_complement self mesh w = ok r ->
  dims r = (len (values r) / prod (flatten (sizes self)))
             :: flatten (sizes self)
  /\ (is_arange mesh = true \/ Forall (fun v => In v (values mesh)) (values r)).
Proof.
  unfold to_remapping_tensor.
  destruct (global_ranks pycute_complement self (tensor_numel mesh))
    as [e|groups]; [discriminate|]. cbn [bind].
  destruct (torch_tensor groups) as [e|t0]; [discriminate|]. cbn [bind].
  destruct (view_groups t0 (flatten (sizes self))) as [e|t] eqn:Hv;
    [discriminate|]. cbn [bind].
  destruct (is_arange mesh).
  - intros H. injection H as <-. split; [|left; reflexivity].
    apply (view_groups_inv _ _ _ Hv).
  - intros H.
    match type of H with
    | bind ?e _ = _ => destruct e as [e'|t'] eqn:Ht'; [discriminate|]
    end.
    cbn [bind] in H. apply gather_inv in H. destruct H as (Hd & Hl & Hin).
    split; [|right; exact Hin].
    assert (Dt' : dims t' = (len (values t') / prod (flatten (sizes self)))
                              :: flatten (sizes self)).
    { destruct (negb (tensor_numel mesh =? w)).
      - destruct (floordiv w (tensor_numel mesh)) as [e|q]; [discriminate|].
        cbn [bind] in Ht'.
        destruct (scale_stride q (strides self)) as [e|ss]; [discriminate|].
        cbn [bind] in Ht'.
        destruct (new (sizes self) ss) as [e|sl]; [discriminate|].
        cbn [bind] in Ht'.
        destruct (global_ranks pycute_complement sl (tensor_numel mesh))
          as [e|g']; [discriminate|].
        cbn [bind] in Ht'.
        destruct (torch_tensor g') as [e|t1]; [discriminate|].
        cbn [bind] in Ht'. apply (view_groups_inv _ _ _ Ht').
      - injection Ht' as <-. apply (view_groups_inv _ _ _ Hv). }
    rewrite Hd, Dt'. unfold len. rewrite Hl. reflexivity.
Qed.

End Remapped.

Lemma to_remapping_tensor_quotient_1_witness :
  to_remapping_tensor Pycute.complement
    (Layout (Tuple [Int 2]) (Tuple [Int 2]))
    (mkTensor [2; 2] [10; 20; 30; 40]) 7
  = to_remapping_tensor Pycute.complement
      (Layout (Tuple [Int 2]) (Tuple [Int 2]))
      (mkTensor [2; 2] [10; 20; 30; 40])
      (tensor_numel (mkTensor [2; 2] [10; 20; 30; 40])).
Proof.
  apply (to_remapping_tensor_quotient_1 Pycute.complement
           (Layout (Tuple [Int 2]) (Tuple [Int 2]))
           (mkTensor [2; 2] [10; 20; 30; 40]) 7); reflexivity.
Defined.

Lemma to_remapping_tensor_small_world_witness :
  to_remapping_tensor Pycute.complement
    (Layout (Tuple [Int 2]) (Tuple [Int 2]))
    (mkTensor [2; 2] [10; 20; 30; 40]) 3
  = raise ZeroDivisionError.
Proof.
  apply (to_remapping_tensor_small_world Pycute.complement
           (Layout (Tuple [Int 2]) (Tuple [Int 2]))
           (mkTensor [2; 2] [10; 20; 30; 40])
           (mkTensor [2; 2] [10; 30; 20; 40]) 3);
    first [reflexivity | (cbn; lia)].
Defined.

Lemma to_remapping_tensor_result_witness :
  dims (mkTensor [2; 2] [10; 30; 20; 40])
  = (len (values (mkTensor [2; 2] [10; 30; 20; 40]))
     / prod (flatten (sizes (Layout (Tuple [Int 2]) (Tuple [Int 2])))))
      :: flatten (sizes (Layout (Tuple [Int 2]) (Tuple [Int 2])))
  /\ (is_arange (mkTensor [2; 2] [10; 20; 30; 40]) = true
      \/ Forall (fun v => In v (values (mkTensor [2; 2] [10; 20; 30; 40])))
                (values (mkTensor [2; 2] [10; 30; 20; 40]))).
Proof.
  apply (to_remapping_tensor_result Pycute.complement
           (Layout (Tuple [Int 2]) (Tuple [Int 2]))
           (mkTensor [2; 2] [10; 20; 30; 40])
           (mkTensor [2; 2] [10; 30; 20; 40]) 4).
  reflexivity.
Defined.

(** ** The first group; the result on a consecutive mesh *)

Section First_group.

Variable pycute_complement : _MeshLayout -> Z -> result _MeshLayout.

(** X19.  Whatever pycute's complement is: when [complement] returns a
    layout with as many size leaves as stride leaves and every size at
    least 1, the first group of [global_ranks] is [member_ranks] of the
    layout itself (the group of offset 0). *)
Theorem global_ranks_first_group
        (self c : _MeshLayout) (world_size : Z) :
  complement pycute_complement self world_size = ok c ->
  same_length c = true -> positive (shape c) = true ->
  exists others,
    global_ranks pycute_complement self world_size
    = ok (member_ranks self :: others).
Proof.
  intros Hc Lc Pc. rewrite (global_ranks_of_complement _ self c world_size Hc).
  unfold shifted_groups. rewrite (member_ranks_dims c Lc).
  destruct (ranks_of_first _ (sizes_positive c Pc)) as [tl E]. rewrite E.
  cbn [map]. rewrite map_add_0. eexists. reflexivity.
Qed.


End First_group.

Lemma global_ranks_first_group_witness :
  exists others,
    global_ranks Pycute.complement (Layout (Tuple [Int 4]) (Tuple [Int 1])) 16
    = ok (member_ranks (Layout (Tuple [Int 4]) (Tuple [Int 1])) :: others).
Proof.
  apply (global_ranks_first_group Pycute.complement
           (Layout (Tuple [Int 4]) (Tuple [Int 1]))
           (Layout (Tuple [Int 4]) (Tuple [Int 4])) 16); reflexivity.
Defined.


(** ** Composition: where the docstring's statement holds *)

(** In a layout with sizes of at least 1, a dimension of size at least 2
    has a position, the same for all strides, whose rank is the stride of
    that dimension: the coordinate that is 1 there and 0 elsewhere. *)
Lemma unit_position (ns : list Z) (i : nat) :
  Forall (fun v => 1 <= v) ns -> 2 <= nth i ns 0 ->
  exists p, forall ss, length ss = length ns ->
    (p < length (ranks_of (zip ns ss)))%nat
    /\ nth p (ranks_of (zip ns ss)) 0 = nth i ss 0.
Proof.
  intros H; revert i; induction H as [|n ns Hn Hns IH]; intros i Hi.
  - destruct i; cbn in Hi; lia.
  - destruct i as [|i].
    + cbn [nth] in Hi. exists (length (ranks_of (zip ns ns))).
      intros [|a ss] E; [discriminate|]. injection E as E.
      cbn [zip combine ranks_of nth].
      rewrite (range_first n) by lia. rewrite (range_first (n - 1)) by lia.
      cbn [map flat_map]. rewrite Z.mul_0_l, map_add_0.
      rewrite (length_ranks_of_zip ns ns ss eq_refl E).
      assert (F : Forall (fun d => 1 <= fst d) (zip ns ss)).
      { rewrite Forall_forall in *. intros [m s] Hd.
        apply in_combine_l in Hd. apply Hns, Hd. }
      destruct (ranks_of_first _ F) as [tl R]. unfold zip in *. rewrite R.
      split.
      * rewrite !length_app, length_map. cbn [length]. lia.
      * rewrite app_nth2 by lia. rewrite Nat.sub_diag.
        cbn [map app nth]. change (1 + 0) with 1. lia.
    + cbn [nth] in Hi. destruct (IH i Hi) as [p Hp]. exists p.
      intros [|a ss] E; [discriminate|]. injection E as E.
      destruct (Hp ss E) as [Hlt Hnth].
      cbn [zip combine ranks_of nth]. rewrite (range_first n) by lia.
      cbn [flat_map]. rewrite Z.mul_0_l, map_add_0. unfold zip in *. split.
      * rewrite length_app. lia.
      * rewrite app_nth1 by exact Hlt. exact Hnth.
Qed.

(** Where the docstring's statement holds: when [self] sends no index
    below itself, the composed layout has, on every dimension of size at
    least 2, a stride that is not below that of [other] (whose sizes are
    at least 1). *)
Lemma composed_stride_not_below (self other res : _MeshLayout) (i : nat) :
  Pycute.is_composition self other res = true ->
  (forall k, 0 <= k < len (member_ranks self) -> k <= Pycute.at_index self k) ->
  same_length other = true -> same_length res = true ->
  positive (shape other) = true ->
  2 <= nth i (flatten (shape other)) 0 ->
  nth i (flatten (stride other)) 0 <= nth i (flatten (stride res)) 0.
Proof.
  intros Hc Hup Lo Lr Hpos Hi.
  apply is_composition_inv in Hc. destruct Hc as (Hsh & Hdom & Hres).
  rewrite (member_ranks_dims res Lr) in Hres.
  pose proof (member_ranks_dims other Lo) as Ho.
  unfold sizes_and_strides in Hres, Ho. rewrite Hsh in Hres.
  apply same_length_eq in Lo, Lr. rewrite Hsh in Lr.
  destruct (unit_position _ i (positive_Forall _ Hpos) Hi) as [p Hp].
  destruct (Hp _ (eq_sym Lo)) as [Plt Po].
  destruct (Hp _ (eq_sym Lr)) as [_ Pr].
  rewrite <- Ho in Plt, Po.
  assert (In (nth i (flatten (stride other)) 0) (member_ranks other)) as Hin.
  { rewrite <- Po. apply nth_In, Plt. }
  rewrite <- Pr, Hres.
  rewrite (nth_indep (map (Pycute.at_index self) (member_ranks other))
                     0 (Pycute.at_index self 0))
    by (rewrite length_map; exact Plt).
  rewrite map_nth, Po. apply Hup, Hdom, Hin.
Qed.

(** So with self = (2,2):(4,1) and other = (2):(2): the composition
    (2):(4) has the larger stride. *)
Example composed_stride_not_below_example :
  nth 0 (flatten (stride (Layout (Tuple [Int 2]) (Tuple [Int 2])))) 0
  <= nth 0 (flatten (stride (Layout (Tuple [Int 2]) (Tuple [Int 4])))) 0.
Proof.
  apply (composed_stride_not_below
           (Layout (Tuple [Int 2; Int 2]) (Tuple [Int 4; Int 1]))
           (Layout (Tuple [Int 2]) (Tuple [Int 2]))
           (Layout (Tuple [Int 2]) (Tuple [Int 4])) 0);
    [reflexivity| |reflexivity|reflexivity|reflexivity|cbn; lia].
  intros k Hk. change (len _) with 4 in Hk.
  assert (E : k = 0 \/ k = 1 \/ k = 2 \/ k = 3) by lia.
  destruct E as [->|[->|[->| ->]]]; vm_compute; discriminate.
Qed.
